(** * process_articles: chunking, normalisation and orchestration

    A shallow embedding of [src/process_articles.py] and the properties
    its specification states about it.

    Python [str] values are modelled as [list ascii]: a character is a
    code point below 256 (Latin-1).  The regular expressions of the
    program run on a small backtracking matcher, and [hashlib.sha256]
    is written out.  The sentence-transformer model and its tokenizer
    are parameters; calls that may raise are written in a small monad,
    so that the same definition can be read with a tokenizer that never
    raises (the identity monad) and with one that may (the [result]
    monad).  Logging, printing and the file system are not modelled. *)

From Stdlib Require Import Ascii String DecimalString List ZArith Lia Bool Arith.
Import ListNotations.

Set Implicit Arguments.

(** ** Python strings *)

Definition str := list ascii.

(** A string literal. *)
Definition lit (s : string) : str := list_ascii_of_string s.

Definition SPACE : ascii := " "%char.
Definition NEWLINE : ascii := ascii_of_nat 10.

(** [Py_UNICODE_ISSPACE] on code points below 256; it is the class used
    by [str.split()], [str.strip()] and the regular expression [\s]. *)
Definition isspace (c : ascii) : bool :=
  let n := nat_of_ascii c in
  ((9 <=? n) && (n <=? 13)) || ((28 <=? n) && (n <=? 32))
  || (n =? 133) || (n =? 160).

(** The class [[.,!?;:]] of [clean_whitespace]. *)
Definition ispunct (c : ascii) : bool :=
  let n := nat_of_ascii c in
  (n =? 46) || (n =? 44) || (n =? 33) || (n =? 63) || (n =? 59) || (n =? 58).

(** The class [[.!?]] of [simple_sentencize], and its complement. *)
Definition isterminal (c : ascii) : bool :=
  let n := nat_of_ascii c in
  (n =? 46) || (n =? 33) || (n =? 63).

Definition nonterminal (c : ascii) : bool := negb (isterminal c).

(** [sep.join(l)] *)
Fixpoint join (sep : str) (l : list str) : str :=
  match l with
  | [] => []
  | [x] => x
  | x :: rest => x ++ sep ++ join sep rest
  end.

(** [s.split()]: the maximal runs of non-whitespace characters.  [word]
    is the run being read. *)
Fixpoint split_from (word : str) (s : str) : list str :=
  match s with
  | [] => match word with [] => [] | _ => [word] end
  | c :: s' =>
      if isspace c
      then match word with
           | [] => split_from [] s'
           | _ => word :: split_from [] s'
           end
      else split_from (word ++ [c]) s'
  end.

Definition split (s : str) : list str := split_from [] s.

(** [s.lstrip()], [s.rstrip()] and [s.strip()] *)
Fixpoint lstrip (s : str) : str :=
  match s with
  | [] => []
  | c :: s' => if isspace c then lstrip s' else s
  end.

Definition rstrip (s : str) : str := rev (lstrip (rev s)).

Definition strip (s : str) : str := rstrip (lstrip s).

(** [s.replace(a, b)] for single characters *)
Definition replace_char (a : ascii) (b : str) (s : str) : str :=
  flat_map (fun c => if Ascii.eqb c a then b else [c]) s.

(** ** Calls that may raise *)

Inductive exn : Type := Exception (msg : string).

Inductive result (A : Type) : Type :=
| Ok (a : A)
| Raise (e : exn).

Arguments Ok {A} a.
Arguments Raise {A} e.

Class Monad (M : Type -> Type) : Type := {
  ret : forall A : Type, A -> M A;
  bind : forall A B : Type, M A -> (A -> M B) -> M B
}.

Arguments ret {M _ A} _.
Arguments bind {M _ A B} _ _.

Notation "x <- c1 ;; c2" := (bind c1 (fun x => c2))
  (at level 61, c1 at next level, right associativity).

(** No call raises: the computation is its value. *)
Definition Id (A : Type) : Type := A.

#[export] Instance Monad_Id : Monad Id := {|
  ret := fun A (a : A) => a;
  bind := fun A B (a : Id A) (f : A -> Id B) => f a
|}.

(** A call may raise; the exception propagates. *)
#[export] Instance Monad_result : Monad result := {|
  ret := fun A (a : A) => Ok a;
  bind := fun A B (c : result A) (f : A -> result B) =>
            match c with
            | Ok a => f a
            | Raise e => Raise e
            end
|}.

(** ** The chunker *)

Section Chunker.

Context {M : Type -> Type} {MM : Monad M}.

(** [len(model.tokenize(text)["input_ids"])] *)
Variable tokenize : str -> M nat.

Variable max_tokens : Z.

(** The loop of [split_long_sentence], from the state
    [(parts, current_part, current_len)]; the flush after the loop is
    the [[]] case. *)
Fixpoint split_long_loop (words : list str)
         (parts current_part : list str) (current_len : nat) : M (list str) :=
  match words with
  | [] =>
      ret (match current_part with
           | [] => parts
           | _ => parts ++ [join [SPACE] current_part]
           end)
  | word :: words' =>
      seq_len <- tokenize word ;;
      let '(parts, current_part, current_len) :=
        if (Z.of_nat (current_len + seq_len) >? max_tokens)%Z
        then (parts ++ [join [SPACE] current_part], [], 0)
        else (parts, current_part, current_len) in
      split_long_loop words' parts (current_part ++ [word]) (current_len + seq_len)
  end.

Definition split_long_sentence (sentence : str) : M (list str) :=
  split_long_loop (split sentence) [] [] 0.

(** The loop of [chunk_sentences], from the state
    [(output, current_chunk, chunk_len)]. *)
Fixpoint chunk_loop (sentences : list str)
         (output current_chunk : list str) (chunk_len : nat) : M (list str) :=
  match sentences with
  | [] =>
      ret (match current_chunk with
           | [] => output
           | _ => output ++ [join [SPACE] current_chunk]
           end)
  | sentence :: sentences' =>
      seq_len <- tokenize sentence ;;
      st <- (if (Z.of_nat (chunk_len + seq_len) >? max_tokens)%Z
             then match current_chunk with
                  | [] =>
                      parts <- split_long_sentence sentence ;;
                      ret (output ++ parts, current_chunk, chunk_len)
                  | _ =>
                      ret (output ++ [join [SPACE] current_chunk], [], 0)
                  end
             else ret (output, current_chunk, chunk_len)) ;;
      let '(output, current_chunk, chunk_len) := st in
      chunk_loop sentences' output (current_chunk ++ [sentence]) (chunk_len + seq_len)
  end.

Definition chunk_sentences (sentences : list str) : M (list str) :=
  chunk_loop sentences [] [] 0.

End Chunker.

(** ** Regular expressions

    The patterns of this program are sequences of character classes,
    each taken once, or under a greedy [+] or [*].  [match_here] is the
    backtracking matcher anchored at the start of the string: for each
    class it first takes the longest run and gives characters back one
    by one while the rest of the pattern fails.  It returns the pieces
    matched by the successive classes and the unmatched remainder. *)

Inductive quant : Type := Once | Plus | Star.

Record atom : Type := Atom { cls : ascii -> bool; qnt : quant }.

Definition regex := list atom.

(** Length of the longest prefix of [s] inside the class. *)
Fixpoint run (cl : ascii -> bool) (s : str) : nat :=
  match s with
  | [] => 0
  | c :: s' => if cl c then S (run cl s') else 0
  end.

(** Try the continuation [m] after [lo + extra] characters, then after
    one fewer, down to [lo]. *)
Fixpoint backtrack (m : str -> option (list str * str)) (s : str)
         (lo extra : nat) : option (list str * str) :=
  match m (skipn (lo + extra) s) with
  | Some (pieces, rest) => Some (firstn (lo + extra) s :: pieces, rest)
  | None =>
      match extra with
      | 0 => None
      | S extra' => backtrack m s lo extra'
      end
  end.

Fixpoint match_here (re : regex) : str -> option (list str * str) :=
  match re with
  | [] => fun s => Some ([], s)
  | Atom cl q :: re' => fun s =>
      let n := run cl s in
      match q with
      | Once => if 1 <=? n then backtrack (match_here re') s 1 0 else None
      | Plus => if 1 <=? n then backtrack (match_here re') s 1 (n - 1) else None
      | Star => backtrack (match_here re') s 0 n
      end
  end.

(** [re.sub(pattern, repl, s)]: leftmost non-overlapping matches are
    replaced; [repl] builds the replacement from the matched pieces.
    [skip] counts the characters of the current match still to be
    passed over. *)
Fixpoint sub_from (re : regex) (repl : list str -> str) (skip : nat) (s : str) : str :=
  match s with
  | [] =>
      match match_here re [] with
      | Some (pieces, _) => repl pieces
      | None => []
      end
  | c :: s' =>
      match skip with
      | S k => sub_from re repl k s'
      | 0 =>
          match match_here re s with
          | Some (pieces, _) =>
              match length (concat pieces) with
              | 0 => repl pieces ++ c :: sub_from re repl 0 s'
              | S k => repl pieces ++ sub_from re repl k s'
              end
          | None => c :: sub_from re repl 0 s'
          end
      end
  end.

Definition re_sub (re : regex) (repl : list str -> str) (s : str) : str :=
  sub_from re repl 0 s.

(** [re.findall(pattern, s)] for a pattern without groups: the matched
    substrings. *)
Fixpoint findall_from (re : regex) (skip : nat) (s : str) : list str :=
  match s with
  | [] =>
      match match_here re [] with
      | Some (pieces, _) => [concat pieces]
      | None => []
      end
  | c :: s' =>
      match skip with
      | S k => findall_from re k s'
      | 0 =>
          match match_here re s with
          | Some (pieces, _) =>
              concat pieces :: findall_from re (length (concat pieces) - 1) s'
          | None => findall_from re 0 s'
          end
      end
  end.

Definition re_findall (re : regex) (s : str) : list str := findall_from re 0 s.

(** ** Normaliser and sentence splitter *)

Definition clean_whitespace (text : str) : str :=
  (* text.replace('\n', ' ') *)
  let text := replace_char NEWLINE [SPACE] text in
  (* re.sub(r'\s+', ' ', text) *)
  let text := re_sub [Atom isspace Plus] (fun _ => [SPACE]) text in
  (* re.sub(r'\s+([.,!?;:])', r'\1', text) *)
  let text := re_sub [Atom isspace Plus; Atom ispunct Once]
                     (fun pieces => nth 1 pieces []) text in
  (* re.sub(r'([.,!?;:])\s+', r'\1 ', text) *)
  let text := re_sub [Atom ispunct Once; Atom isspace Plus]
                     (fun pieces => nth 0 pieces [] ++ [SPACE]) text in
  strip text.

(** Truth value of a string: non-empty. *)
Definition truthy (s : str) : bool :=
  match s with [] => false | _ => true end.

Definition simple_sentencize (text : str) : list str :=
  (* re.findall(r'[^.!?]*[.!?]', text) *)
  let sentences := re_findall [Atom nonterminal Star; Atom isterminal Once] text in
  map strip (filter (fun sentence => truthy (strip sentence)) sentences).

(** ** The token budget *)

(** The tokenizer of the model: its configured maximum length and its
    call on a text, which may raise. *)
Record Tokenizer : Type := {
  model_max_length : Z;
  tokenizer_call : str -> result unit
}.

Definition find_max_tokens (tokenizer : Tokenizer) : Z :=
  let max_length := model_max_length tokenizer in
  let max_length := if (max_length >? 9000)%Z then 510%Z else max_length in
  match tokenizer_call tokenizer (lit "This is a test sentence.") with
  | Ok _ => max_length
  | Raise _ => 510%Z
  end.

(** ** SHA-256 and the prompt hash

    [hashlib.sha256], after FIPS 180-4, on 32-bit words kept in [Z]. *)

Module SHA256.

Local Open Scope Z_scope.

Definition w32 (x : Z) : Z := x mod 2 ^ 32.

Definition rotr (n x : Z) : Z :=
  Z.lor (Z.shiftr x n) (w32 (Z.shiftl x (32 - n))).

Definition Ch (x y z : Z) : Z :=
  Z.lxor (Z.land x y) (Z.land (Z.lxor x 0xffffffff) z).

Definition Maj (x y z : Z) : Z :=
  Z.lxor (Z.lxor (Z.land x y) (Z.land x z)) (Z.land y z).

Definition Sigma0 (x : Z) : Z := Z.lxor (Z.lxor (rotr 2 x) (rotr 13 x)) (rotr 22 x).
Definition Sigma1 (x : Z) : Z := Z.lxor (Z.lxor (rotr 6 x) (rotr 11 x)) (rotr 25 x).
Definition sigma0 (x : Z) : Z := Z.lxor (Z.lxor (rotr 7 x) (rotr 18 x)) (Z.shiftr x 3).
Definition sigma1 (x : Z) : Z := Z.lxor (Z.lxor (rotr 17 x) (rotr 19 x)) (Z.shiftr x 10).

(** The constants are fractional parts of roots of the first primes:
    of the cube roots of the first 64 for the round constants, of the
    square roots of the first 8 for the initial hash value. *)
Definition is_prime (n : nat) : bool :=
  forallb (fun d => negb (n mod d =? 0)%nat) (seq 2 (n - 2)).

Definition primes : list Z := map Z.of_nat (filter is_prime (seq 2 310)).

(** The integer cube root below [2 ^ n], bit by bit from the top. *)
Fixpoint cube_root (n : nat) (x r : Z) : Z :=
  match n with
  | O => r
  | S n' =>
      let r' := r + 2 ^ Z.of_nat n' in
      if r' * r' * r' <=? x then cube_root n' x r' else cube_root n' x r
  end.

Definition K : list Z := map (fun p => w32 (cube_root 36 (p * 2 ^ 96) 0)) primes.

(** The eight working variables, and the hash value. *)
Record registers : Type := Regs { ra : Z; rb : Z; rc : Z; rd : Z; re : Z; rf : Z; rg : Z; rh : Z }.

Definition frac_sqrt (p : Z) : Z := w32 (Z.sqrt (p * 2 ^ 64)).

Definition H0 : registers :=
  Regs (frac_sqrt 2) (frac_sqrt 3) (frac_sqrt 5) (frac_sqrt 7)
       (frac_sqrt 11) (frac_sqrt 13) (frac_sqrt 17) (frac_sqrt 19).

(** Padding: the byte 0x80, zeros up to 56 modulo 64, then the bit
    length on eight bytes, most significant first. *)
Definition be_bytes (n : nat) (x : Z) : list Z :=
  map (fun i => (x / 2 ^ (8 * Z.of_nat i)) mod 256) (rev (seq 0 n)).

Definition pad (msg : list Z) : list Z :=
  let l := Z.of_nat (length msg) in
  let k := Z.to_nat ((55 - l) mod 64) in
  msg ++ [0x80] ++ repeat 0 k ++ be_bytes 8 (8 * l).

(** Big-endian words of a byte sequence. *)
Fixpoint words_of (n : nat) (bytes : list Z) : list Z :=
  match n with
  | O => []
  | S n' =>
      match bytes with
      | b0 :: b1 :: b2 :: b3 :: rest =>
          (((b0 * 256 + b1) * 256 + b2) * 256 + b3) :: words_of n' rest
      | _ => []
      end
  end.

(** The message schedule, most recent word first. *)
Fixpoint schedule (n : nat) (w : list Z) : list Z :=
  match n with
  | O => w
  | S n' =>
      let wt := w32 (sigma1 (nth 1 w 0) + nth 6 w 0 + sigma0 (nth 14 w 0) + nth 15 w 0) in
      schedule n' (wt :: w)
  end.

Definition round (r : registers) (kw : Z * Z) : registers :=
  let '(k, w) := kw in
  let t1 := rh r + Sigma1 (re r) + Ch (re r) (rf r) (rg r) + k + w in
  let t2 := Sigma0 (ra r) + Maj (ra r) (rb r) (rc r) in
  Regs (w32 (t1 + t2)) (ra r) (rb r) (rc r) (w32 (rd r + t1)) (re r) (rf r) (rg r).

Definition compress (h : registers) (block : list Z) : registers :=
  let w := rev (schedule 48 (rev (words_of 16 block))) in
  let r := fold_left round (combine K w) h in
  Regs (w32 (ra h + ra r)) (w32 (rb h + rb r)) (w32 (rc h + rc r)) (w32 (rd h + rd r))
       (w32 (re h + re r)) (w32 (rf h + rf r)) (w32 (rg h + rg r)) (w32 (rh h + rh r)).

Fixpoint blocks (n : nat) (h : registers) (bytes : list Z) : registers :=
  match n with
  | O => h
  | S n' => blocks n' (compress h (firstn 64 bytes)) (skipn 64 bytes)
  end.

Definition digest (msg : list Z) : registers :=
  let padded := pad msg in
  blocks (length padded / 64) H0 padded.

Definition hex_digit (x : Z) : ascii :=
  nth (Z.to_nat x) (list_ascii_of_string "0123456789abcdef") "0"%char.

Definition hex8 (x : Z) : str :=
  map (fun i => hex_digit ((x / 16 ^ Z.of_nat i) mod 16)) (rev (seq 0 8)).

Definition hexdigest (msg : list Z) : str :=
  let h := digest msg in
  hex8 (ra h) ++ hex8 (rb h) ++ hex8 (rc h) ++ hex8 (rd h)
  ++ hex8 (re h) ++ hex8 (rf h) ++ hex8 (rg h) ++ hex8 (rh h).

End SHA256.

(** [s.encode()]: UTF-8, for code points below 256. *)
Definition encode_utf8 (s : str) : list Z :=
  flat_map (fun c => let n := Z.of_nat (nat_of_ascii c) in
                     if (n <? 128)%Z then [n]
                     else [192 + n / 64; 128 + n mod 64]%Z) s.

Definition hash_prompt (prompt : str) : str :=
  firstn 8 (SHA256.hexdigest (encode_utf8 prompt)).

(** ** The output directory *)

(** Truth value and [str()] of an optional string argument. *)
Definition option_truthy (o : option str) : bool :=
  match o with
  | Some s => truthy s
  | None => false
  end.

Definition str_of_option (o : option str) : str :=
  match o with
  | Some s => s
  | None => lit "None"
  end.

(** The last component of [output_path] in [main]: the directory is
    [output_dir / output_name].  [prefix_description] is [None] when the
    option is not given. *)
Definition output_name (model_name prefix : str) (prefix_description : option str) : str :=
  let mname := replace_char "/"%char (lit "__") model_name in
  if truthy prefix then
    if option_truthy prefix_description then
      lit "emb__" ++ mname ++ lit "_" ++ str_of_option prefix_description
    else
      let prefix_hash := hash_prompt prefix in
      lit "emb__" ++ mname ++ lit "_" ++ prefix_hash
  else lit "emb__" ++ mname.

(** ** The orchestrator *)

(** A cell of the data frame. *)
Inductive value : Type :=
| VStr (s : str)
| VInt (n : Z)
| VNaN.

(** [str(v)] *)
Definition str_of_value (v : value) : str :=
  match v with
  | VStr s => s
  | VInt n => lit (DecimalString.NilZero.string_of_int (Z.to_int n))
  | VNaN => lit "nan"
  end.

Record Row : Type := {
  row_article_id : value;
  row_text : value
}.

Section Orchestrator.

(** The scalar type of an embedding vector. *)
Variable float : Type.

Record SentenceTransformer : Type := {
  tokenizer : Tokenizer;
  tokenize : str -> result nat;
  encode : str -> result (list float)
}.

Record ProcessedArticle : Type := {
  article_id : str;
  chunk : list str;
  embedding : list (list float)
}.

Variable model : SentenceTransformer.
Variable max_tokens : Z.
Variable prefix : str.

(** The first [try] block of the loop body.  [clean_whitespace] calls
    [text.replace], which a cell that is not a string does not have. *)
Definition preprocess (text : value) : result (list str) :=
  match text with
  | VStr text =>
      let text_clean := clean_whitespace text in
      let sentences := simple_sentencize text_clean in
      chunk_sentences (tokenize model) max_tokens sentences
  | _ => Raise (Exception "AttributeError: object has no attribute 'replace'")
  end.

(** The second [try] block: the loop over the chunks. *)
Fixpoint embed_loop (chunks : list str) (embeddings : list (list float))
  : result (list (list float)) :=
  match chunks with
  | [] => Ok embeddings
  | chunk :: chunks' =>
      let chunk_input := if truthy prefix then prefix ++ lit " " ++ chunk else chunk in
      emb <- encode model chunk_input ;;
      embed_loop chunks' (embeddings ++ [emb])
  end.

Definition embed (chunks : list str) : result (list (list float)) :=
  embed_loop chunks [].

(** The loop over the rows; a caught exception is [continue]. *)
Fixpoint process_loop (rows : list Row) (processed_articles : list ProcessedArticle)
  : list ProcessedArticle :=
  match rows with
  | [] => processed_articles
  | row :: rows' =>
      match preprocess (row_text row) with
      | Raise _ => process_loop rows' processed_articles
      | Ok chunks =>
          match embed chunks with
          | Raise _ => process_loop rows' processed_articles
          | Ok embeddings =>
              process_loop rows'
                (processed_articles
                 ++ [{| article_id := str_of_value (row_article_id row);
                        chunk := chunks;
                        embedding := embeddings |}])
          end
      end
  end.

End Orchestrator.

(** [main]: [input_csv] is [None] when the file does not exist.  The
    result is the name of the output directory and the saved dataset. *)
Definition main (float : Type) (model : SentenceTransformer float)
           (input_csv : option (list Row))
           (model_name prefix : str) (prefix_description : option str)
  : result (str * list (ProcessedArticle float)) :=
  let max_tokens := find_max_tokens (tokenizer model) in
  let output_path := output_name model_name prefix prefix_description in
  match input_csv with
  | None => Raise (Exception "FileNotFoundError: Input file not found")
  | Some df =>
      let processed_articles := process_loop model max_tokens prefix df [] in
      Ok (output_path, processed_articles)
  end.

(** * Vocabulary of the properties *)

(** A word: not empty, and without whitespace. *)
Definition wordlike (w : str) : Prop :=
  w <> [] /\ forallb (fun c => negb (isspace c)) w = true.

(** Both loops end, and the chunker also overflows, by appending the
    joined buffer to what was emitted, when the buffer is not empty. *)
Definition flush (l current : list str) : list str :=
  match current with
  | [] => l
  | _ => l ++ [join [SPACE] current]
  end.

(** The text has at most [max_tokens] tokens. *)
Definition within_budget (tok : str -> nat) (max_tokens : Z) (s : str) : Prop :=
  (Z.of_nat (tok s) <= max_tokens)%Z.

(** One token per character. *)
Definition char_tokens (s : str) : nat := length s.

(** One token per character that is not whitespace. *)
Definition nonspace_tokens (s : str) : nat :=
  length (filter (fun c => negb (isspace c)) s).

(** The string does not start with whitespace. *)
Definition head_nonspace (s : str) : Prop :=
  match s with
  | d :: _ => isspace d = false
  | [] => True
  end.

(** Every whitespace character is a space and is not followed by
    whitespace. *)
Fixpoint single_spaced (s : str) : Prop :=
  match s with
  | [] => True
  | c :: s' =>
      (isspace c = true -> c = SPACE /\ head_nonspace s') /\ single_spaced s'
  end.

(** The string does not start with a punctuation mark of the class. *)
Definition head_nonpunct (s : str) : Prop :=
  match s with
  | d :: _ => ispunct d = false
  | [] => True
  end.

(** Single-spaced, and no space stands before a punctuation mark. *)
Fixpoint tidy (s : str) : Prop :=
  match s with
  | [] => True
  | c :: s' =>
      (isspace c = true -> c = SPACE /\ head_nonspace s' /\ head_nonpunct s') /\ tidy s'
  end.

(** No whitespace at either end. *)
Definition trimmed (s : str) : Prop := head_nonspace s /\ head_nonspace (rev s).

(** The calls [f x] for the elements of a list, in order, up to the
    first that raises. *)
Fixpoint map_result (A B : Type) (f : A -> result B) (l : list A) : result (list B) :=
  match l with
  | [] => Ok []
  | x :: l' =>
      match f x with
      | Raise e => Raise e
      | Ok y =>
          match map_result f l' with
          | Raise e => Raise e
          | Ok ys => Ok (y :: ys)
          end
      end
  end.

(** The text to encode, in the words of the specification: the prefix,
    one space, the chunk; the chunk alone when the prefix is empty. *)
Definition encode_input (prefix chunk : str) : str :=
  match prefix with
  | [] => chunk
  | _ => prefix ++ [SPACE] ++ chunk
  end.

(** A stage of the loop body raises for the row. *)
Definition row_fails (float : Type) (model : SentenceTransformer float)
           (max_tokens : Z) (prefix : str) (row : Row) : Prop :=
  (exists e, preprocess model max_tokens (row_text row) = Raise e)
  \/ (exists chunks e,
         preprocess model max_tokens (row_text row) = Ok chunks
         /\ embed model prefix chunks = Raise e).

(** The scenario of the specification: three records, the second of
    which cannot be embedded. *)
Definition refusing_model : SentenceTransformer Z := {|
  tokenizer := {| model_max_length := 512; tokenizer_call := fun _ => Ok tt |};
  tokenize := fun s => Ok (length s);
  encode := fun s =>
              if list_eq_dec ascii_dec s (lit "Second.")
              then Raise (Exception "out of memory")
              else Ok [Z.of_nat (length s)]
|}.

Definition three_rows : list Row :=
  [ {| row_article_id := VInt 1; row_text := VStr (lit "First.") |};
    {| row_article_id := VInt 2; row_text := VStr (lit "Second.") |};
    {| row_article_id := VInt 3; row_text := VStr (lit "Third.") |} ].

(** The sum of the token counts of the pieces of a group. *)
Definition token_sum (tok : str -> nat) (g : list str) : nat := list_sum (map tok g).

(** A group the loops can hold: its token counts sum to at most the
    budget, or it is a single piece. *)
Definition group_ok (tok : str -> nat) (max_tokens : Z) (g : list str) : Prop :=
  (Z.of_nat (token_sum tok g) <= max_tokens)%Z \/ exists s, g = [s].

(** Greedy packing: the groups are not empty, each can be held, and
    the first piece of a group did not fit after the group before it. *)
Inductive packed (tok : str -> nat) (max_tokens : Z) : list (list str) -> Prop :=
| packed_nil : packed tok max_tokens []
| packed_one (g : list str) :
    g <> [] -> group_ok tok max_tokens g -> packed tok max_tokens [g]
| packed_cons (g : list str) (s : str) (g' : list str) (gs : list (list str)) :
    g <> [] -> group_ok tok max_tokens g ->
    (max_tokens < Z.of_nat (token_sum tok g + tok s))%Z ->
    packed tok max_tokens ((s :: g') :: gs) ->
    packed tok max_tokens (g :: (s :: g') :: gs).

(** The characters of a string that are not whitespace. *)
Definition nonspace (s : str) : str := filter (fun c => negb (isspace c)) s.

(** A match of the pattern: characters that are not terminal marks,
    then one that is. *)
Definition sentence_like (m : str) : Prop :=
  exists body p, m = body ++ [p] /\ forallb nonterminal body = true /\ isterminal p = true.

(** The string has no [/]. *)
Definition no_slash (s : str) : bool :=
  forallb (fun c => negb (Ascii.eqb c "/"%char)) s.

(** The digits of [hexdigest]. *)
Definition hex_digits : str := lit "0123456789abcdef".

(** The article is index-aligned: each embedding is what [encode]
    returned for the chunk at its place, with the prefix. *)
Definition aligned (float : Type) (model : SentenceTransformer float) (prefix : str)
           (a : ProcessedArticle float) : Prop :=
  Forall2 (fun c emb => encode model (encode_input prefix c) = Ok emb)
          (chunk a) (embedding a).

(** A model whose tokenizer raises for one sentence. *)
Definition choking_model : SentenceTransformer Z := {|
  tokenizer := {| model_max_length := 512; tokenizer_call := fun _ => Ok tt |};
  tokenize := fun s =>
                if list_eq_dec ascii_dec s (lit "Bad.")
                then Raise (Exception "unknown symbol") else Ok (length s);
  encode := fun s => Ok [Z.of_nat (length s)]
|}.

(** Whitespace only as single spaces between other characters. *)
Definition well_spaced (s : str) : Prop := single_spaced s /\ trimmed s.

(** A piece to join: well spaced and not empty. *)
Definition piece (s : str) : Prop := s <> [] /\ well_spaced s.

(** The three substitutions of [clean_whitespace] and the search of
    [simple_sentencize]. *)
Abbreviation sub_spaces := (re_sub [Atom isspace Plus] (fun _ => [SPACE])).

Abbreviation sub_before :=
  (re_sub [Atom isspace Plus; Atom ispunct Once] (fun pieces => nth 1 pieces [])).

Abbreviation sub_after :=
  (re_sub [Atom ispunct Once; Atom isspace Plus]
          (fun pieces => nth 0 pieces [] ++ [SPACE])).

Abbreviation findall_sentences :=
  (re_findall [Atom nonterminal Star; Atom isterminal Once]).

(** * Properties *)

(** ** Words and joins *)

Lemma split_from_app_space (a b word : str) :
  split_from word (a ++ SPACE :: b) = split_from word a ++ split b.
Proof.
  revert word. induction a as [|c a IH]; intros word; simpl.
  - destruct word; reflexivity.
  - destruct (isspace c).
    + destruct word; simpl; rewrite IH; reflexivity.
    + apply IH.
Qed.

Lemma split_join (l : list str) :
  split (join [SPACE] l) = flat_map split l.
Proof.
  induction l as [|x l IH]; [reflexivity|].
  destruct l as [|y l].
  - simpl. rewrite app_nil_r. reflexivity.
  - change (join [SPACE] (x :: y :: l)) with (x ++ SPACE :: join [SPACE] (y :: l)).
    unfold split at 1. rewrite split_from_app_space, IH. reflexivity.
Qed.

Lemma split_from_nospace (s word : str) :
  forallb (fun c => negb (isspace c)) s = true ->
  split_from word s = match word ++ s with [] => [] | _ => [word ++ s] end.
Proof.
  revert word. induction s as [|c s IH]; intros word Hs; simpl in *.
  - rewrite app_nil_r. reflexivity.
  - apply andb_true_iff in Hs. destruct Hs as [Hc Hs].
    destruct (isspace c); [discriminate|].
    rewrite IH by assumption. rewrite <- app_assoc. reflexivity.
Qed.

Lemma split_wordlike (w : str) : wordlike w -> split w = [w].
Proof.
  intros [Hne Hw]. unfold split. rewrite split_from_nospace by assumption.
  simpl. destruct w; [contradiction|reflexivity].
Qed.

Lemma split_from_wordlike (s word : str) :
  forallb (fun c => negb (isspace c)) word = true ->
  Forall wordlike (split_from word s).
Proof.
  revert word. induction s as [|c s IH]; intros word Hw; simpl.
  - destruct word; constructor; [|constructor]. split; [discriminate|assumption].
  - destruct (isspace c) eqn:Hc.
    + destruct word.
      * apply IH. reflexivity.
      * constructor; [split; [discriminate|assumption]|]. apply IH. reflexivity.
    + apply IH. rewrite forallb_app, Hw. simpl. rewrite Hc. reflexivity.
Qed.

Lemma split_words_wordlike (s : str) : Forall wordlike (split s).
Proof. apply split_from_wordlike. reflexivity. Qed.

Lemma flat_map_split_wordlike (ws : list str) :
  Forall wordlike ws -> flat_map split ws = ws.
Proof.
  induction 1 as [|w ws Hw _ IH]; [reflexivity|].
  simpl. rewrite split_wordlike, IH by assumption. reflexivity.
Qed.

Lemma split_join_words (ws : list str) :
  Forall wordlike ws -> split (join [SPACE] ws) = ws.
Proof. intros H. rewrite split_join. apply flat_map_split_wordlike, H. Qed.

Lemma flat_map_single (A B : Type) (f : A -> list B) (a : A) :
  flat_map f [a] = f a.
Proof. simpl. apply app_nil_r. Qed.

(** ** The chunker with a tokenizer that does not raise *)

Section PureChunker.

Variable tok : str -> nat.
Variable max_tokens : Z.

Abbreviation split_loop := (split_long_loop (M:=Id) tok max_tokens).
Abbreviation split_sentence := (split_long_sentence (M:=Id) tok max_tokens).
Abbreviation loop := (chunk_loop (M:=Id) tok max_tokens).
Abbreviation chunks := (chunk_sentences (M:=Id) tok max_tokens).
Abbreviation within := (within_budget tok max_tokens).

Lemma split_loop_nil parts current_part current_len :
  split_loop [] parts current_part current_len = flush parts current_part.
Proof. reflexivity. Qed.

Lemma split_loop_cons word words parts current_part current_len :
  split_loop (word :: words) parts current_part current_len =
  if (Z.of_nat (current_len + tok word) >? max_tokens)%Z
  then split_loop words (parts ++ [join [SPACE] current_part]) [word] (tok word)
  else split_loop words parts (current_part ++ [word]) (current_len + tok word).
Proof.
  simpl. destruct (Z.of_nat (current_len + tok word) >? max_tokens)%Z; reflexivity.
Qed.

Lemma loop_nil output current_chunk chunk_len :
  loop [] output current_chunk chunk_len = flush output current_chunk.
Proof. reflexivity. Qed.

Lemma loop_cons sentence sentences output current_chunk chunk_len :
  loop (sentence :: sentences) output current_chunk chunk_len =
  if (Z.of_nat (chunk_len + tok sentence) >? max_tokens)%Z
  then match current_chunk with
       | [] => loop sentences (output ++ split_sentence sentence)
                    [sentence] (chunk_len + tok sentence)
       | _ => loop sentences (output ++ [join [SPACE] current_chunk])
                   [sentence] (tok sentence)
       end
  else loop sentences output (current_chunk ++ [sentence]) (chunk_len + tok sentence).
Proof.
  simpl. destruct (Z.of_nat (chunk_len + tok sentence) >? max_tokens)%Z;
    [destruct current_chunk|]; reflexivity.
Qed.

(** What was already emitted stays in front. *)
Lemma split_loop_output words parts current_part current_len :
  split_loop words parts current_part current_len =
  parts ++ split_loop words [] current_part current_len.
Proof.
  revert parts current_part current_len.
  induction words as [|w ws IH]; intros parts cur len.
  - rewrite !split_loop_nil. destruct cur; simpl; [rewrite app_nil_r|]; reflexivity.
  - rewrite !split_loop_cons.
    destruct (Z.of_nat (len + tok w) >? max_tokens)%Z.
    + rewrite IH. rewrite (IH ([] ++ _)). rewrite app_assoc. reflexivity.
    + apply IH.
Qed.

Lemma loop_output sentences output current_chunk chunk_len :
  loop sentences output current_chunk chunk_len =
  output ++ loop sentences [] current_chunk chunk_len.
Proof.
  revert output current_chunk chunk_len.
  induction sentences as [|s ss IH]; intros out cur len.
  - rewrite !loop_nil. destruct cur; simpl; [rewrite app_nil_r|]; reflexivity.
  - rewrite !loop_cons.
    destruct (Z.of_nat (len + tok s) >? max_tokens)%Z; [destruct cur|].
    + rewrite IH. rewrite (IH ([] ++ _)). rewrite app_assoc. reflexivity.
    + rewrite IH. rewrite (IH ([] ++ _)). rewrite app_assoc. reflexivity.
    + apply IH.
Qed.

(** *** Budget *)

Section Subadditive.

(** The token count of a joined text is at most the sum of the
    token counts of its pieces. *)
Hypothesis tok_join :
  forall l : list str, l <> [] -> tok (join [SPACE] l) <= list_sum (map tok l).

Lemma flush_budget l current len :
  Forall within l ->
  len = list_sum (map tok current) ->
  (current <> [] -> (Z.of_nat len <= max_tokens)%Z) ->
  Forall within (flush l current).
Proof.
  intros Hl Hlen Hmax. destruct current as [|x current]; [exact Hl|].
  apply Forall_app. split; [exact Hl|].
  constructor; [|constructor].
  assert (Hne : x :: current <> []) by discriminate.
  specialize (tok_join Hne). specialize (Hmax Hne).
  unfold within_budget. lia.
Qed.

Lemma split_loop_budget words :
  Forall within words ->
  forall parts current_part current_len,
    Forall within parts ->
    current_len = list_sum (map tok current_part) ->
    (current_part <> [] -> (Z.of_nat current_len <= max_tokens)%Z) ->
    Forall within (split_loop words parts current_part current_len).
Proof.
  induction 1 as [|w ws Hw _ IH]; intros parts cur len Hparts Hlen Hmax.
  - rewrite split_loop_nil. eapply flush_budget; eassumption.
  - rewrite split_loop_cons, Z.gtb_ltb.
    unfold within_budget in Hw.
    destruct (Z.ltb_spec max_tokens (Z.of_nat (len + tok w))) as [Hover|Hfits].
    + apply IH.
      * destruct cur as [|x cur]; [simpl in Hlen; lia|].
        change (parts ++ [join [SPACE] (x :: cur)]) with (flush parts (x :: cur)).
        eapply flush_budget; eassumption.
      * simpl. lia.
      * intros _. exact Hw.
    + apply IH; [exact Hparts| |intros _; lia].
      rewrite map_app, list_sum_app. simpl. lia.
Qed.

Lemma loop_budget sentences :
  Forall within sentences ->
  forall output current_chunk chunk_len,
    Forall within output ->
    chunk_len = list_sum (map tok current_chunk) ->
    (current_chunk <> [] -> (Z.of_nat chunk_len <= max_tokens)%Z) ->
    Forall within (loop sentences output current_chunk chunk_len).
Proof.
  induction 1 as [|s ss Hs _ IH]; intros out cur len Hout Hlen Hmax.
  - rewrite loop_nil. eapply flush_budget; eassumption.
  - rewrite loop_cons, Z.gtb_ltb.
    unfold within_budget in Hs.
    destruct (Z.ltb_spec max_tokens (Z.of_nat (len + tok s))) as [Hover|Hfits].
    + destruct cur as [|x cur]; [simpl in Hlen; lia|].
      apply IH.
      * change (out ++ [join [SPACE] (x :: cur)]) with (flush out (x :: cur)).
        eapply flush_budget; eassumption.
      * simpl. lia.
      * intros _. exact Hs.
    + apply IH; [exact Hout| |intros _; lia].
      rewrite map_app, list_sum_app. simpl. lia.
Qed.

End Subadditive.

(** *** Words *)

Lemma flush_words l current :
  flat_map split (flush l current) = flat_map split l ++ flat_map split current.
Proof.
  destruct current as [|x current].
  - simpl. rewrite app_nil_r. reflexivity.
  - unfold flush. rewrite flat_map_app, flat_map_single, split_join. reflexivity.
Qed.

Lemma split_loop_words words :
  Forall wordlike words ->
  forall parts current_part current_len,
    Forall wordlike current_part ->
    flat_map split (split_loop words parts current_part current_len) =
    flat_map split parts ++ current_part ++ words.
Proof.
  induction 1 as [|w ws Hw Hws IH]; intros parts cur len Hcur.
  - rewrite split_loop_nil, flush_words, (flat_map_split_wordlike Hcur), app_nil_r.
    reflexivity.
  - rewrite split_loop_cons.
    destruct (Z.of_nat (len + tok w) >? max_tokens)%Z.
    + rewrite IH by (constructor; [assumption|constructor]).
      rewrite flat_map_app, flat_map_single, split_join_words by assumption.
      rewrite <- app_assoc. reflexivity.
    + rewrite IH by (apply Forall_app; split; [assumption|constructor; [assumption|constructor]]).
      rewrite <- app_assoc. reflexivity.
Qed.

Lemma split_sentence_words sentence :
  flat_map split (split_sentence sentence) = split sentence.
Proof.
  unfold split_long_sentence.
  rewrite split_loop_words by (constructor || apply split_words_wordlike).
  reflexivity.
Qed.

Lemma loop_words sentences :
  forall output current_chunk chunk_len,
    current_chunk <> [] ->
    flat_map split (loop sentences output current_chunk chunk_len) =
    flat_map split output ++ flat_map split current_chunk ++ flat_map split sentences.
Proof.
  induction sentences as [|s ss IH]; intros out cur len Hcur.
  - rewrite loop_nil, flush_words. simpl. rewrite app_nil_r. reflexivity.
  - rewrite loop_cons.
    destruct (Z.of_nat (len + tok s) >? max_tokens)%Z.
    + destruct cur as [|x cur]; [contradiction|].
      rewrite IH by discriminate.
      change (out ++ [join [SPACE] (x :: cur)]) with (flush out (x :: cur)).
      rewrite flush_words, flat_map_single.
      rewrite <- !app_assoc. reflexivity.
    + rewrite IH by (destruct cur; discriminate).
      rewrite flat_map_app, flat_map_single.
      rewrite <- !app_assoc. reflexivity.
Qed.

(** The buffer, once non-empty, is the start of the next flushed chunk. *)
Lemma loop_first_chunk sentences :
  forall x current_chunk chunk_len,
  exists group later,
    loop sentences [] (x :: current_chunk) chunk_len =
    join [SPACE] (x :: current_chunk ++ group) :: later.
Proof.
  induction sentences as [|s ss IH]; intros x cur len.
  - exists [], []. rewrite loop_nil, app_nil_r. reflexivity.
  - rewrite loop_cons.
    destruct (Z.of_nat (len + tok s) >? max_tokens)%Z.
    + exists [], (loop ss [] [s] (tok s)).
      rewrite loop_output, app_nil_r. reflexivity.
    + destruct (IH x (cur ++ [s]) (len + tok s)) as (group & later & E).
      exists (s :: group), later.
      change ((x :: cur) ++ [s]) with (x :: cur ++ [s]).
      rewrite E, <- app_assoc. reflexivity.
Qed.

End PureChunker.

Lemma nonspace_tokens_app (a b : str) :
  nonspace_tokens (a ++ b) = nonspace_tokens a + nonspace_tokens b.
Proof. unfold nonspace_tokens. rewrite filter_app, length_app. reflexivity. Qed.

Lemma nonspace_tokens_space (s : str) :
  nonspace_tokens (SPACE :: s) = nonspace_tokens s.
Proof. reflexivity. Qed.

Lemma nonspace_tokens_join (l : list str) :
  nonspace_tokens (join [SPACE] l) = list_sum (map nonspace_tokens l).
Proof.
  induction l as [|x l IH]; [reflexivity|].
  destruct l as [|y l].
  - simpl. lia.
  - change (join [SPACE] (x :: y :: l)) with (x ++ SPACE :: join [SPACE] (y :: l)).
    rewrite nonspace_tokens_app, nonspace_tokens_space, IH. reflexivity.
Qed.

Lemma nonspace_tokens_subadditive (l : list str) :
  l <> [] -> nonspace_tokens (join [SPACE] l) <= list_sum (map nonspace_tokens l).
Proof. intros _. rewrite nonspace_tokens_join. lia. Qed.

(** *** The two readings of the chunker agree *)

(** With a tokenizer that never raises, the chunker in the [result]
    monad returns what the chunker in the identity monad computes. *)
Lemma split_long_loop_total (tok : str -> nat) (max_tokens : Z) (words : list str) :
  forall parts current_part current_len,
    split_long_loop (M:=result) (fun s => Ok (tok s)) max_tokens
                    words parts current_part current_len =
    Ok (split_long_loop (M:=Id) tok max_tokens words parts current_part current_len).
Proof.
  induction words as [|w ws IH]; intros parts cur len; [reflexivity|].
  simpl. destruct (Z.of_nat (len + tok w) >? max_tokens)%Z; apply IH.
Qed.

Lemma chunk_loop_total (tok : str -> nat) (max_tokens : Z) (sentences : list str) :
  forall output current_chunk chunk_len,
    chunk_loop (M:=result) (fun s => Ok (tok s)) max_tokens
               sentences output current_chunk chunk_len =
    Ok (chunk_loop (M:=Id) tok max_tokens sentences output current_chunk chunk_len).
Proof.
  induction sentences as [|s ss IH]; intros out cur len; [reflexivity|].
  simpl. destruct (Z.of_nat (len + tok s) >? max_tokens)%Z; [destruct cur|].
  - unfold split_long_sentence. rewrite split_long_loop_total. simpl. apply IH.
  - simpl. apply IH.
  - simpl. apply IH.
Qed.

Lemma chunk_sentences_total (tok : str -> nat) (max_tokens : Z) (sentences : list str) :
  chunk_sentences (M:=result) (fun s => Ok (tok s)) max_tokens sentences =
  Ok (chunk_sentences (M:=Id) tok max_tokens sentences).
Proof. apply chunk_loop_total. Qed.

(** One token per character is a count that does not decrease as text
    is appended. *)
Lemma char_tokens_monotone (a b : str) : char_tokens a <= char_tokens (a ++ b).
Proof. unfold char_tokens. rewrite length_app. lia. Qed.

(** *** C1: the oversized first sentence is split and kept *)

(** C1.  When the buffer is empty and the sentence does not fit, the
    parts of [split_long_sentence] go to the output and the sentence is
    appended to the buffer all the same; the sentence then starts the
    next flushed chunk; and the words of the chunks are the words of
    the sentences, preceded once more by the words of the first
    sentence when it is over the budget. *)
Theorem oversized_sentence_is_split_and_kept (tok : str -> nat) (max_tokens : Z) :
  (forall sentence rest output chunk_len,
      (max_tokens < Z.of_nat (chunk_len + tok sentence))%Z ->
      chunk_loop (M:=Id) tok max_tokens (sentence :: rest) output [] chunk_len =
      chunk_loop (M:=Id) tok max_tokens rest
        (output ++ split_long_sentence (M:=Id) tok max_tokens sentence)
        [sentence] (chunk_len + tok sentence))
  /\ (forall sentence rest,
         (max_tokens < Z.of_nat (tok sentence))%Z ->
         exists group later,
           chunk_sentences (M:=Id) tok max_tokens (sentence :: rest) =
           split_long_sentence (M:=Id) tok max_tokens sentence
           ++ join [SPACE] (sentence :: group) :: later)
  /\ (forall sentences,
         flat_map split (chunk_sentences (M:=Id) tok max_tokens sentences) =
         match sentences with
         | sentence :: _ =>
             if (Z.of_nat (tok sentence) >? max_tokens)%Z then split sentence else []
         | [] => []
         end ++ flat_map split sentences).
Proof.
  split; [|split].
  - intros s rest out len Hover.
    rewrite loop_cons, Z.gtb_ltb.
    destruct (Z.ltb_spec max_tokens (Z.of_nat (len + tok s))); [reflexivity|lia].
  - intros s rest Hover.
    destruct (loop_first_chunk tok max_tokens rest s [] (tok s)) as (group & later & E).
    exists group, later.
    unfold chunk_sentences. rewrite loop_cons, Z.gtb_ltb.
    destruct (Z.ltb_spec max_tokens (Z.of_nat (0 + tok s))); [|simpl in *; lia].
    rewrite loop_output. simpl. rewrite E. reflexivity.
  - intros [|s ss]; [reflexivity|].
    unfold chunk_sentences. rewrite loop_cons. simpl Nat.add.
    destruct (Z.of_nat (tok s) >? max_tokens)%Z.
    + rewrite loop_words by discriminate.
      rewrite flat_map_single. simpl app at 1.
      rewrite split_sentence_words. reflexivity.
    + simpl app at 1. rewrite loop_words by discriminate.
      rewrite flat_map_single. reflexivity.
Qed.

Lemma oversized_sentence_is_split_and_kept_witness :
  (2 < Z.of_nat (char_tokens (lit "Hello.")))%Z
  /\ (exists group later,
         chunk_sentences (M:=Id) char_tokens 2 [lit "Hello."; lit "Bye."] =
         split_long_sentence (M:=Id) char_tokens 2 (lit "Hello.")
         ++ join [SPACE] (lit "Hello." :: group) :: later)
  /\ flat_map split (chunk_sentences (M:=Id) char_tokens 2 [lit "Hello."; lit "Bye."]) =
     [lit "Hello."; lit "Hello."; lit "Bye."].
Proof.
  split; [vm_compute; reflexivity|]. split.
  - apply (proj1 (proj2 (oversized_sentence_is_split_and_kept char_tokens 2))).
    vm_compute. reflexivity.
  - rewrite (proj2 (proj2 (oversized_sentence_is_split_and_kept char_tokens 2))).
    reflexivity.
Defined.

(** The chunks of the run above: the empty part and the word, then the
    sentence once more, then the next sentence. *)
Example oversized_sentence_run :
  chunk_sentences (M:=Id) char_tokens 2 [lit "Hello."; lit "Bye."] =
  [[]; lit "Hello."; lit "Hello."; lit "Bye."].
Proof. reflexivity. Qed.

(** *** C2: an empty chunk *)

(** C2.  When the first sentence is over the budget and so is its first
    word, the word-level splitter flushes its empty buffer, and the
    first chunk returned is the empty string. *)
Theorem first_word_over_budget_gives_empty_chunk
        (tok : str -> nat) (max_tokens : Z) (sentence : str) (rest : list str)
        (word : str) (words : list str) :
  split sentence = word :: words ->
  (max_tokens < Z.of_nat (tok sentence))%Z ->
  (max_tokens < Z.of_nat (tok word))%Z ->
  exists later,
    chunk_sentences (M:=Id) tok max_tokens (sentence :: rest) = [] :: later.
Proof.
  intros Hsplit Hs Hw.
  unfold chunk_sentences. rewrite loop_cons, Z.gtb_ltb.
  destruct (Z.ltb_spec max_tokens (Z.of_nat (0 + tok sentence))); [|simpl in *; lia].
  rewrite loop_output. unfold split_long_sentence. rewrite Hsplit.
  rewrite split_loop_cons, Z.gtb_ltb.
  destruct (Z.ltb_spec max_tokens (Z.of_nat (0 + tok word))); [|simpl in *; lia].
  rewrite split_loop_output. simpl. eexists. reflexivity.
Qed.

Lemma first_word_over_budget_gives_empty_chunk_witness :
  chunk_sentences (M:=Id) char_tokens 2 [lit "Hello."] = [[]; lit "Hello."; lit "Hello."]
  /\ exists later, chunk_sentences (M:=Id) char_tokens 2 [lit "Hello."] = [] :: later.
Proof.
  split; [reflexivity|].
  apply (@first_word_over_budget_gives_empty_chunk
           char_tokens 2 (lit "Hello.") [] (lit "Hello.") []);
    [reflexivity | vm_compute; reflexivity | vm_compute; reflexivity].
Defined.

(** *** C3: the budget of the chunks *)

(** C3 as stated fails: with one token per character the joining space
    is counted, and two sentences of two tokens fill a chunk of five. *)
Lemma chunk_budget_counterexample :
  ~ (forall (tok : str -> nat) (max_tokens : Z) (sentences : list str),
        (1 <= max_tokens)%Z ->
        Forall (within_budget tok max_tokens) sentences ->
        Forall (within_budget tok max_tokens)
               (chunk_sentences (M:=Id) tok max_tokens sentences)).
Proof.
  intros H.
  specialize (H char_tokens 4%Z [lit "A."; lit "B."]).
  assert (Hc : Forall (within_budget char_tokens 4) [lit "A. B."]).
  { apply H; [lia|]. repeat constructor; unfold within_budget; simpl; lia. }
  inversion Hc as [|? ? Hhd _]. unfold within_budget in Hhd. simpl in Hhd. lia.
Qed.

(** C3, amended.  When the token count of a joined text is at most the
    sum of the token counts of its pieces and no sentence is over the
    budget, no chunk is. *)
Theorem chunks_within_budget (tok : str -> nat) (max_tokens : Z) (sentences : list str) :
  (forall l : list str, l <> [] -> tok (join [SPACE] l) <= list_sum (map tok l)) ->
  (1 <= max_tokens)%Z ->
  Forall (within_budget tok max_tokens) sentences ->
  Forall (within_budget tok max_tokens) (chunk_sentences (M:=Id) tok max_tokens sentences).
Proof.
  intros Hjoin Hmax Hs. unfold chunk_sentences.
  apply loop_budget; [exact Hjoin | exact Hs | constructor | reflexivity | intros []; reflexivity].
Qed.

Lemma chunks_within_budget_witness :
  Forall (within_budget nonspace_tokens 4)
         (chunk_sentences (M:=Id) nonspace_tokens 4 [lit "A."; lit "B."; lit "Cd."]).
Proof.
  apply chunks_within_budget.
  - exact nonspace_tokens_subadditive.
  - lia.
  - repeat constructor; unfold within_budget; simpl; lia.
Defined.

(** *** C4: the budget of the parts *)

(** C4 as stated fails for the same reason. *)
Lemma part_budget_counterexample :
  ~ (forall (tok : str -> nat) (max_tokens : Z) (sentence : str),
        Forall (within_budget tok max_tokens) (split sentence) ->
        Forall (within_budget tok max_tokens)
               (split_long_sentence (M:=Id) tok max_tokens sentence)).
Proof.
  intros H.
  specialize (H char_tokens 4%Z (lit "ab cd")).
  assert (Hc : Forall (within_budget char_tokens 4) [lit "ab cd"]).
  { apply H. repeat constructor; unfold within_budget; simpl; lia. }
  inversion Hc as [|? ? Hhd _]. unfold within_budget in Hhd. simpl in Hhd. lia.
Qed.

(** C4, amended.  When the token count of a joined text is at most the
    sum of the token counts of its pieces and no word is over the
    budget, no part is: for the words of a sentence and for any list of
    words. *)
Theorem parts_within_budget (tok : str -> nat) (max_tokens : Z) :
  (forall l : list str, l <> [] -> tok (join [SPACE] l) <= list_sum (map tok l)) ->
  (forall words,
      Forall (within_budget tok max_tokens) words ->
      Forall (within_budget tok max_tokens)
             (split_long_loop (M:=Id) tok max_tokens words [] [] 0))
  /\ (forall sentence,
         Forall (within_budget tok max_tokens) (split sentence) ->
         Forall (within_budget tok max_tokens)
                (split_long_sentence (M:=Id) tok max_tokens sentence)).
Proof.
  intros Hjoin.
  assert (Hloop : forall words,
             Forall (within_budget tok max_tokens) words ->
             Forall (within_budget tok max_tokens)
                    (split_long_loop (M:=Id) tok max_tokens words [] [] 0)).
  { intros words Hw.
    apply split_loop_budget;
      [exact Hjoin | exact Hw | constructor | reflexivity | intros []; reflexivity]. }
  split; [exact Hloop|].
  intros sentence Hw. apply Hloop, Hw.
Qed.

Lemma parts_within_budget_witness :
  Forall (within_budget nonspace_tokens 4)
         (split_long_sentence (M:=Id) nonspace_tokens 4 (lit "ab cd efg h")).
Proof.
  apply (proj2 (@parts_within_budget nonspace_tokens 4 nonspace_tokens_subadditive)).
  repeat constructor; unfold within_budget; simpl; lia.
Defined.

(** ** The matcher *)

Lemma backtrack_top (m : str -> option (list str * str)) (s : str) (lo extra : nat)
      (pieces : list str) (rest : str) :
  m (skipn (lo + extra) s) = Some (pieces, rest) ->
  backtrack m s lo extra = Some (firstn (lo + extra) s :: pieces, rest).
Proof. intros H. destruct extra; simpl; rewrite H; reflexivity. Qed.

Lemma backtrack_none (m : str -> option (list str * str)) (s : str) (lo extra : nat) :
  (forall k, lo <= k <= lo + extra -> m (skipn k s) = None) ->
  backtrack m s lo extra = None.
Proof.
  induction extra as [|extra IH]; intros H; simpl.
  - rewrite H by lia. reflexivity.
  - rewrite H by lia. apply IH. intros k Hk. apply H. lia.
Qed.

Lemma run_le (cl : ascii -> bool) (s : str) : run cl s <= length s.
Proof. induction s as [|c s IH]; simpl; [lia|]. destruct (cl c); simpl; lia. Qed.

(** Inside the run every character is in the class; the run stops at a
    character outside it, or at the end. *)
Lemma skipn_in_run (cl : ascii -> bool) (s : str) (k : nat) :
  k < run cl s -> exists c t, skipn k s = c :: t /\ cl c = true.
Proof.
  revert k. induction s as [|c s IH]; intros k Hk; simpl in Hk; [lia|].
  destruct (cl c) eqn:Hc; [|lia].
  destruct k as [|k].
  - exists c, s. split; [reflexivity|exact Hc].
  - simpl. apply IH. lia.
Qed.

Lemma skipn_at_run (cl : ascii -> bool) (s : str) (c : ascii) (t : str) :
  skipn (run cl s) s = c :: t -> cl c = false.
Proof.
  induction s as [|d s IH]; simpl; [discriminate|].
  destruct (cl d) eqn:Hd; simpl.
  - exact IH.
  - intros E. injection E as -> _. exact Hd.
Qed.

Lemma skipn_run_isspace (s : str) : skipn (run isspace s) s = lstrip s.
Proof.
  induction s as [|c s IH]; [reflexivity|].
  simpl. destruct (isspace c); [exact IH|reflexivity].
Qed.

Lemma match_once (cl : ascii -> bool) (s : str) :
  match_here [Atom cl Once] s =
  match s with
  | c :: t => if cl c then Some ([[c]], t) else None
  | [] => None
  end.
Proof.
  destruct s as [|c t]; [reflexivity|].
  simpl. destruct (cl c); reflexivity.
Qed.

Lemma match_plus (cl : ascii -> bool) (s : str) :
  match_here [Atom cl Plus] s =
  match run cl s with
  | 0 => None
  | S n => Some ([firstn (S n) s], skipn (S n) s)
  end.
Proof.
  simpl. destruct (run cl s) as [|n]; [reflexivity|].
  simpl Nat.leb. cbv iota. rewrite Nat.sub_succ, Nat.sub_0_r.
  apply (backtrack_top (fun s => Some ([], s)) s 1 n). reflexivity.
Qed.

(** A run of one class followed by one character of a class disjoint
    from it: giving characters back never helps. *)
Lemma backtrack_run_fail (cl stop : ascii -> bool) (s : str) (lo extra : nat) :
  (forall c, cl c = true -> stop c = false) ->
  lo + extra = run cl s ->
  (forall c t, skipn (run cl s) s = c :: t -> stop c = false) ->
  backtrack (match_here [Atom stop Once]) s lo extra = None.
Proof.
  intros Hdisj Hn Hstop. apply backtrack_none. intros k Hk.
  rewrite match_once.
  destruct (Nat.eq_dec k (run cl s)) as [->|Hne].
  - destruct (skipn (run cl s) s) as [|c t] eqn:E; [reflexivity|].
    rewrite (Hstop c t eq_refl). reflexivity.
  - destruct (@skipn_in_run cl s k) as (c & t & -> & Hc); [lia|].
    rewrite (Hdisj c Hc). reflexivity.
Qed.

Lemma backtrack_run_ok (cl stop : ascii -> bool) (s : str) (lo extra : nat)
      (c : ascii) (t : str) :
  lo + extra = run cl s ->
  skipn (run cl s) s = c :: t ->
  stop c = true ->
  backtrack (match_here [Atom stop Once]) s lo extra =
  Some ([firstn (run cl s) s; [c]], t).
Proof.
  intros Hn E Hc. rewrite <- Hn in *. apply backtrack_top.
  rewrite match_once, E, Hc. reflexivity.
Qed.

Lemma match_plus_then_once (cl stop : ascii -> bool) (s : str) :
  (forall c, cl c = true -> stop c = false) ->
  match_here [Atom cl Plus; Atom stop Once] s =
  match run cl s, skipn (run cl s) s with
  | S _, c :: t =>
      if stop c then Some ([firstn (run cl s) s; [c]], t) else None
  | _, _ => None
  end.
Proof.
  intros Hdisj.
  change (match_here [Atom cl Plus; Atom stop Once] s) with
    (if 1 <=? run cl s
     then backtrack (match_here [Atom stop Once]) s 1 (run cl s - 1) else None).
  destruct (run cl s) as [|n] eqn:En; [reflexivity|].
  simpl Nat.leb. cbv iota. rewrite <- En.
  destruct (skipn (run cl s) s) as [|c t] eqn:E.
  - apply (@backtrack_run_fail cl); [exact Hdisj|lia|]. rewrite E. discriminate.
  - destruct (stop c) eqn:Hc.
    + apply backtrack_run_ok; [lia|exact E|exact Hc].
    + apply (@backtrack_run_fail cl); [exact Hdisj|lia|].
      rewrite E. intros ? ? [= <- _]. exact Hc.
Qed.

Lemma match_star_then_once (cl stop : ascii -> bool) (s : str) :
  (forall c, cl c = true -> stop c = false) ->
  match_here [Atom cl Star; Atom stop Once] s =
  match skipn (run cl s) s with
  | c :: t =>
      if stop c then Some ([firstn (run cl s) s; [c]], t) else None
  | [] => None
  end.
Proof.
  intros Hdisj.
  change (match_here [Atom cl Star; Atom stop Once] s) with
    (backtrack (match_here [Atom stop Once]) s 0 (run cl s)).
  destruct (skipn (run cl s) s) as [|c t] eqn:E.
  - apply (@backtrack_run_fail cl); [exact Hdisj|lia|]. rewrite E. discriminate.
  - destruct (stop c) eqn:Hc.
    + apply backtrack_run_ok; [lia|exact E|exact Hc].
    + apply (@backtrack_run_fail cl); [exact Hdisj|lia|].
      rewrite E. intros ? ? [= <- _]. exact Hc.
Qed.

Lemma match_once_then_plus (cl1 cl2 : ascii -> bool) (s : str) :
  match_here [Atom cl1 Once; Atom cl2 Plus] s =
  match s with
  | c :: t =>
      if cl1 c
      then match run cl2 t with
           | 0 => None
           | S n => Some ([[c]; firstn (S n) t], skipn (S n) t)
           end
      else None
  | [] => None
  end.
Proof.
  destruct s as [|c t]; [reflexivity|].
  change (match_here [Atom cl1 Once; Atom cl2 Plus] (c :: t)) with
    (if 1 <=? run cl1 (c :: t)
     then backtrack (match_here [Atom cl2 Plus]) (c :: t) 1 0 else None).
  simpl run. destruct (cl1 c); [|reflexivity].
  simpl Nat.leb. cbv iota.
  unfold backtrack. simpl skipn. simpl firstn. rewrite match_plus.
  destruct (run cl2 t); reflexivity.
Qed.

(** ** Substitution and search, one match at a time *)

Lemma sub_from_skip (re : regex) (repl : list str -> str) (k : nat) (s : str) :
  sub_from re repl k s = sub_from re repl 0 (skipn k s).
Proof.
  revert k. induction s as [|c s IH]; intros [|k]; try reflexivity.
  simpl. apply IH.
Qed.

Lemma sub_from_cons (re : regex) (repl : list str -> str) (c : ascii) (s : str) :
  sub_from re repl 0 (c :: s) =
  match match_here re (c :: s) with
  | Some (pieces, _) =>
      match length (concat pieces) with
      | 0 => repl pieces ++ c :: sub_from re repl 0 s
      | S k => repl pieces ++ sub_from re repl 0 (skipn k s)
      end
  | None => c :: sub_from re repl 0 s
  end.
Proof.
  simpl. destruct (match_here re (c :: s)) as [[pieces rest]|]; [|reflexivity].
  destruct (length (concat pieces)); [reflexivity|].
  rewrite sub_from_skip. reflexivity.
Qed.

Lemma findall_from_skip (re : regex) (k : nat) (s : str) :
  findall_from re k s = findall_from re 0 (skipn k s).
Proof.
  revert k. induction s as [|c s IH]; intros [|k]; try reflexivity.
  simpl. apply IH.
Qed.

Lemma findall_from_cons (re : regex) (c : ascii) (s : str) :
  findall_from re 0 (c :: s) =
  match match_here re (c :: s) with
  | Some (pieces, _) =>
      concat pieces :: findall_from re 0 (skipn (length (concat pieces) - 1) s)
  | None => findall_from re 0 s
  end.
Proof.
  simpl. destruct (match_here re (c :: s)) as [[pieces rest]|]; [|reflexivity].
  rewrite findall_from_skip. reflexivity.
Qed.

Lemma skipn_next (A : Type) (n : nat) (l : list A) (x : A) (r : list A) :
  skipn n l = x :: r -> skipn (n + 1) l = r.
Proof. intros E. rewrite Nat.add_comm, <- skipn_skipn, E. reflexivity. Qed.

Lemma length_firstn_run (cl : ascii -> bool) (s : str) :
  length (firstn (run cl s) s) = run cl s.
Proof. rewrite length_firstn. pose proof (run_le cl s). lia. Qed.

Lemma isspace_not_punct (c : ascii) : isspace c = true -> ispunct c = false.
Proof.
  destruct c as [[] [] [] [] [] [] [] []]; vm_compute; congruence.
Qed.

Lemma nonterminal_not_terminal (c : ascii) : nonterminal c = true -> isterminal c = false.
Proof. unfold nonterminal. destruct (isterminal c); [discriminate|reflexivity]. Qed.

(** *** The three substitutions of [clean_whitespace] *)

Lemma sub_spaces_cons (c : ascii) (s : str) :
  sub_spaces (c :: s) =
  if isspace c then SPACE :: sub_spaces (lstrip s) else c :: sub_spaces s.
Proof.
  unfold re_sub. rewrite sub_from_cons, match_plus. simpl run.
  destruct (isspace c); [|reflexivity].
  simpl concat. rewrite app_nil_r. simpl length.
  rewrite length_firstn_run, skipn_run_isspace. reflexivity.
Qed.

Lemma sub_before_cons (c : ascii) (s : str) :
  sub_before (c :: s) =
  if isspace c
  then match lstrip s with
       | p :: r => if ispunct p then p :: sub_before r else c :: sub_before s
       | [] => c :: sub_before s
       end
  else c :: sub_before s.
Proof.
  unfold re_sub. rewrite sub_from_cons, match_plus_then_once by exact isspace_not_punct.
  simpl run. destruct (isspace c); [|reflexivity].
  simpl skipn. rewrite skipn_run_isspace.
  destruct (lstrip s) as [|p r] eqn:E; [reflexivity|].
  destruct (ispunct p); [|reflexivity].
  simpl concat. simpl length. rewrite length_app, length_firstn_run. simpl length.
  rewrite <- skipn_run_isspace in E. rewrite (@skipn_next _ _ _ _ _ E). reflexivity.
Qed.

Lemma sub_after_cons (c : ascii) (s : str) :
  sub_after (c :: s) =
  if ispunct c
  then match run isspace s with
       | 0 => c :: sub_after s
       | S _ => c :: SPACE :: sub_after (lstrip s)
       end
  else c :: sub_after s.
Proof.
  unfold re_sub. rewrite sub_from_cons, match_once_then_plus.
  destruct (ispunct c); [|reflexivity].
  destruct (run isspace s) as [|n] eqn:En; [reflexivity|].
  cbn [concat app length nth]. rewrite app_nil_r.
  rewrite <- En, length_firstn_run, skipn_run_isspace. reflexivity.
Qed.

(** *** The search of [simple_sentencize] *)

Lemma run_all (cl : ascii -> bool) (s : str) :
  forallb cl s = true -> run cl s = length s.
Proof.
  induction s as [|c s IH]; [reflexivity|]. simpl.
  destruct (cl c); [|discriminate]. intros H. rewrite IH by exact H. reflexivity.
Qed.

Lemma run_app_stop (cl : ascii -> bool) (a : str) (p : ascii) (r : str) :
  forallb cl a = true -> cl p = false -> run cl (a ++ p :: r) = length a.
Proof.
  intros Ha Hp. induction a as [|c a IH]; simpl in *.
  - rewrite Hp. reflexivity.
  - destruct (cl c); [|discriminate]. rewrite IH by exact Ha. reflexivity.
Qed.

Lemma findall_sentences_none (u : str) :
  forallb nonterminal u = true -> findall_sentences u = [].
Proof.
  induction u as [|c u IH]; [reflexivity|].
  intros H. unfold re_findall.
  rewrite findall_from_cons, match_star_then_once by exact nonterminal_not_terminal.
  rewrite (run_all _ _ H), skipn_all.
  simpl in H. apply andb_true_iff in H. apply IH, H.
Qed.

Lemma findall_sentences_first (a : str) (p : ascii) (r : str) :
  forallb nonterminal a = true -> isterminal p = true ->
  findall_sentences (a ++ p :: r) = (a ++ [p]) :: findall_sentences r.
Proof.
  intros Ha Hp.
  assert (Hp' : nonterminal p = false) by (unfold nonterminal; rewrite Hp; reflexivity).
  assert (Hm : match_here [Atom nonterminal Star; Atom isterminal Once] (a ++ p :: r)
               = Some ([a; [p]], r)).
  { rewrite match_star_then_once by exact nonterminal_not_terminal.
    rewrite (run_app_stop _ _ _ r Ha Hp').
    rewrite skipn_app, skipn_all, Nat.sub_diag, firstn_app, firstn_all, Nat.sub_diag.
    simpl. rewrite Hp, app_nil_r. reflexivity. }
  unfold re_findall.
  destruct a as [|c a].
  - simpl app in *. rewrite findall_from_cons, Hm. reflexivity.
  - simpl app in *. rewrite findall_from_cons, Hm.
    simpl concat.
    change (length (c :: a ++ [p]) - 1) with (length (a ++ [p]) - 0).
    rewrite Nat.sub_0_r, length_app. simpl length.
    rewrite (@skipn_next _ (length a) (a ++ p :: r) p r).
    + reflexivity.
    + rewrite skipn_app, skipn_all, Nat.sub_diag. reflexivity.
Qed.

(** ** The sentence splitter *)

Lemma first_terminal (s : str) :
  forallb nonterminal s = true
  \/ exists a q r, s = a ++ q :: r /\ forallb nonterminal a = true /\ isterminal q = true.
Proof.
  induction s as [|c s IH]; [left; reflexivity|].
  destruct (isterminal c) eqn:Hc.
  - right. exists [], c, s. repeat split; assumption.
  - destruct IH as [IH|(a & q & r & -> & Ha & Hq)].
    + left. simpl. unfold nonterminal at 1. rewrite Hc. exact IH.
    + right. exists (c :: a), q, r. repeat split; [|exact Hq].
      simpl. unfold nonterminal at 1. rewrite Hc. exact Ha.
Qed.

Lemma findall_sentences_trailing (n : nat) :
  forall (text : str) (p : ascii) (tail : str),
    length text <= n ->
    isterminal p = true -> forallb nonterminal tail = true ->
    findall_sentences (text ++ p :: tail) = findall_sentences (text ++ [p]).
Proof.
  induction n as [|n IH]; intros text p tail Hn Hp Htail.
  - destruct text; [|simpl in Hn; lia].
    rewrite !findall_sentences_first by (reflexivity || exact Hp).
    rewrite findall_sentences_none by exact Htail. reflexivity.
  - destruct (first_terminal text) as [Hall|(a & q & r & -> & Ha & Hq)].
    + rewrite !findall_sentences_first by assumption.
      rewrite findall_sentences_none by exact Htail. reflexivity.
    + rewrite <- !app_assoc. simpl app.
      rewrite !(findall_sentences_first a q) by assumption.
      f_equal. apply IH; [|exact Hp|exact Htail].
      rewrite length_app in Hn. simpl in Hn. lia.
Qed.

(** ** The normal form of [clean_whitespace] *)

Lemma tidy_single_spaced (s : str) : tidy s -> single_spaced s.
Proof.
  induction s as [|c s IH]; [trivial|].
  intros [Hc Hs]. split; [|exact (IH Hs)].
  intros Hw. destruct (Hc Hw) as (-> & Hn & _). split; [reflexivity|exact Hn].
Qed.

Lemma lstrip_head (s : str) : head_nonspace (lstrip s).
Proof.
  induction s as [|c s IH]; [exact I|].
  simpl. destruct (isspace c) eqn:Hc; [exact IH|exact Hc].
Qed.

Lemma lstrip_id (s : str) : head_nonspace s -> lstrip s = s.
Proof. destruct s as [|c s]; [reflexivity|]. simpl. intros ->. reflexivity. Qed.

Lemma lstrip_suffix (s : str) : exists w, s = w ++ lstrip s.
Proof.
  induction s as [|c s [w IH]]; [exists []; reflexivity|].
  simpl. destruct (isspace c).
  - exists (c :: w). simpl. rewrite <- IH. reflexivity.
  - exists []. reflexivity.
Qed.

Lemma rstrip_prefix (s : str) : exists w, s = rstrip s ++ w.
Proof.
  unfold rstrip. destruct (lstrip_suffix (rev s)) as [w E].
  exists (rev w). rewrite <- rev_app_distr, <- E, rev_involutive. reflexivity.
Qed.

Lemma strip_trimmed (s : str) : trimmed (strip s).
Proof.
  unfold trimmed, strip. split.
  - destruct (rstrip_prefix (lstrip s)) as [w E].
    pose proof (lstrip_head s) as H. rewrite E in H.
    destruct (rstrip (lstrip s)); [exact I|exact H].
  - unfold rstrip. rewrite rev_involutive. apply lstrip_head.
Qed.

Lemma strip_id (s : str) : trimmed s -> strip s = s.
Proof.
  intros [Hl Hr]. unfold strip, rstrip.
  rewrite (lstrip_id _ Hl), (lstrip_id _ Hr). apply rev_involutive.
Qed.

Lemma tidy_app (a b : str) : tidy (a ++ b) -> tidy a /\ tidy b.
Proof.
  induction a as [|c a IH]; simpl; [intros H; split; [exact I|exact H]|].
  intros [Hc Hab]. destruct (IH Hab) as [Ha Hb]. split; [|exact Hb].
  split; [|exact Ha].
  intros Hw. destruct (Hc Hw) as (-> & Hn & Hp).
  split; [reflexivity|]. destruct a; [split; exact I|split; assumption].
Qed.

Lemma strip_tidy (s : str) : tidy s -> tidy (strip s).
Proof.
  intros H. unfold strip.
  destruct (lstrip_suffix s) as [w E]. rewrite E in H.
  apply tidy_app in H. destruct H as [_ H].
  destruct (rstrip_prefix (lstrip s)) as [w' E']. rewrite E' in H.
  apply tidy_app in H. exact (proj1 H).
Qed.

(** *** What each step of [clean_whitespace] establishes *)

Lemma sub_spaces_nil : sub_spaces [] = [].
Proof. reflexivity. Qed.

Lemma sub_before_nil : sub_before [] = [].
Proof. reflexivity. Qed.

Lemma sub_after_nil : sub_after [] = [].
Proof. reflexivity. Qed.

Lemma sub_spaces_head (s : str) : head_nonspace s -> head_nonspace (sub_spaces s).
Proof.
  destruct s as [|c s]; [intros _; exact I|].
  simpl. intros Hc. rewrite sub_spaces_cons, Hc. exact Hc.
Qed.

Lemma sub_spaces_single_spaced (s : str) :
  single_spaced (sub_spaces s) /\ single_spaced (sub_spaces (lstrip s)).
Proof.
  induction s as [|c s [IH1 IH2]]; [split; exact I|].
  assert (H1 : single_spaced (sub_spaces (c :: s))).
  { rewrite sub_spaces_cons. destruct (isspace c) eqn:Hc.
    - split; [|exact IH2]. intros _. split; [reflexivity|].
      apply sub_spaces_head, lstrip_head.
    - split; [|exact IH1]. rewrite Hc. discriminate. }
  split; [exact H1|].
  simpl lstrip. destruct (isspace c); [exact IH2|exact H1].
Qed.

Lemma sub_spaces_id (s : str) : single_spaced s -> sub_spaces s = s.
Proof.
  induction s as [|c s IH]; [reflexivity|].
  intros [Hc Hs]. rewrite sub_spaces_cons.
  destruct (isspace c).
  - destruct (Hc eq_refl) as [-> Hn]. rewrite (lstrip_id _ Hn), (IH Hs). reflexivity.
  - rewrite (IH Hs). reflexivity.
Qed.

Lemma punct_not_space (c : ascii) : ispunct c = true -> isspace c = false.
Proof.
  intros Hp. destruct (isspace c) eqn:Hw; [|reflexivity].
  rewrite (isspace_not_punct c Hw) in Hp. discriminate.
Qed.

Lemma sub_before_tidy (s : str) : single_spaced s -> tidy (sub_before s).
Proof.
  induction s as [|c s IH]; [intros _; exact I|].
  intros [Hc Hs]. specialize (IH Hs). rewrite sub_before_cons.
  destruct (isspace c) eqn:Hw.
  - destruct (Hc eq_refl) as [-> Hn]. rewrite (lstrip_id _ Hn).
    destruct s as [|p r]; [split; [intros _; repeat split|exact I]|].
    simpl in Hn. rewrite sub_before_cons, Hn in IH.
    destruct (ispunct p) eqn:Hp.
    + split; [rewrite Hn; discriminate|exact (proj2 IH)].
    + split; [|rewrite sub_before_cons, Hn; exact IH].
      intros _. rewrite sub_before_cons, Hn. repeat split; assumption.
  - split; [rewrite Hw; discriminate|exact IH].
Qed.

Lemma sub_before_id (s : str) : tidy s -> sub_before s = s.
Proof.
  induction s as [|c s IH]; [reflexivity|].
  intros [Hc Hs]. rewrite sub_before_cons, (IH Hs).
  destruct (isspace c); [|reflexivity].
  destruct (Hc eq_refl) as (-> & Hn & Hp). rewrite (lstrip_id _ Hn).
  destruct s as [|p r]; [reflexivity|].
  simpl in Hp. rewrite Hp. reflexivity.
Qed.

Lemma sub_after_id (s : str) : tidy s -> sub_after s = s.
Proof.
  induction s as [|c s IH]; [reflexivity|].
  intros [Hc Hs]. specialize (IH Hs). rewrite sub_after_cons.
  destruct (ispunct c); [|rewrite IH; reflexivity].
  destruct s as [|d r]; [reflexivity|].
  simpl run. simpl lstrip. destruct (isspace d) eqn:Hd; [|rewrite IH; reflexivity].
  destruct Hs as [Hd' _]. destruct (Hd' Hd) as (-> & Hn & _).
  rewrite (lstrip_id _ Hn).
  rewrite sub_after_cons in IH. change (ispunct SPACE) with false in IH.
  rewrite IH. reflexivity.
Qed.

Lemma replace_newline_id (s : str) :
  tidy s -> replace_char NEWLINE [SPACE] s = s.
Proof.
  induction s as [|c s IH]; [reflexivity|].
  intros [Hc Hs]. unfold replace_char in *. simpl. rewrite (IH Hs).
  destruct (Ascii.eqb_spec c NEWLINE) as [->|_]; [|reflexivity].
  destruct (Hc eq_refl) as [E _]. discriminate E.
Qed.

Lemma clean_whitespace_normal (s : str) :
  tidy (clean_whitespace s) /\ trimmed (clean_whitespace s).
Proof.
  unfold clean_whitespace. split; [|apply strip_trimmed].
  apply strip_tidy.
  pose proof (sub_before_tidy _ (proj1 (sub_spaces_single_spaced
                                           (replace_char NEWLINE [SPACE] s)))) as H.
  rewrite (sub_after_id _ H). exact H.
Qed.

Lemma clean_whitespace_id (s : str) :
  tidy s -> trimmed s -> clean_whitespace s = s.
Proof.
  intros Ht Hs. unfold clean_whitespace.
  rewrite (replace_newline_id _ Ht), (sub_spaces_id _ (tidy_single_spaced _ Ht)),
    (sub_before_id _ Ht), (sub_after_id _ Ht).
  apply strip_id, Hs.
Qed.

(** *** C6: sentences end at a terminal mark *)

(** C6.  ["A. B! C?"] gives the three sentences, a text without a
    terminal mark gives none, and whatever follows the last terminal
    mark of a text is dropped. *)
Theorem simple_sentencize_drops_trailing_text :
  simple_sentencize (lit "A. B! C?") = [lit "A."; lit "B!"; lit "C?"]
  /\ simple_sentencize (lit "no end") = []
  /\ (forall tail : str,
         forallb nonterminal tail = true -> simple_sentencize tail = [])
  /\ (forall (text : str) (p : ascii) (tail : str),
         isterminal p = true -> forallb nonterminal tail = true ->
         simple_sentencize (text ++ p :: tail) = simple_sentencize (text ++ [p])).
Proof.
  split; [reflexivity|]. split; [reflexivity|]. split.
  - intros tail Htail. unfold simple_sentencize.
    rewrite findall_sentences_none by exact Htail. reflexivity.
  - intros text p tail Hp Htail. unfold simple_sentencize.
    rewrite (@findall_sentences_trailing (length text) text p tail)
      by (lia || assumption).
    reflexivity.
Qed.

Lemma simple_sentencize_drops_trailing_text_witness :
  simple_sentencize (lit "One. Two? and the rest") = [lit "One."; lit "Two?"]
  /\ simple_sentencize (lit "One. Two? and the rest") = simple_sentencize (lit "One. Two?").
Proof.
  split; [reflexivity|].
  apply (proj2 (proj2 (proj2 simple_sentencize_drops_trailing_text))
           (lit "One. Two") "?"%char (lit " and the rest"));
    reflexivity.
Defined.

(** *** C7: the normaliser is idempotent *)

(** C7.  [clean_whitespace] is a function on all strings, maps the
    empty string to itself, and applied twice gives what it gives
    applied once. *)
Theorem clean_whitespace_idempotent :
  (forall s : str, clean_whitespace (clean_whitespace s) = clean_whitespace s)
  /\ clean_whitespace [] = [].
Proof.
  split; [|reflexivity].
  intros s. destruct (clean_whitespace_normal s) as [Ht Hs].
  apply clean_whitespace_id; assumption.
Qed.

(** *** C5: the token budget of the run *)

(** C5.  [find_max_tokens] gives the configured maximum when it is at
    most 9000 and the trial call succeeds, 510 when the configured
    maximum is above 9000, and 510 when the trial call raises; in that
    last case [main] goes on with 510. *)
Theorem find_max_tokens_cases (tk : Tokenizer) :
  ((model_max_length tk <= 9000)%Z ->
   (exists u, tokenizer_call tk (lit "This is a test sentence.") = Ok u) ->
   find_max_tokens tk = model_max_length tk)
  /\ ((9000 < model_max_length tk)%Z -> find_max_tokens tk = 510%Z)
  /\ ((exists e, tokenizer_call tk (lit "This is a test sentence.") = Raise e) ->
      find_max_tokens tk = 510%Z
      /\ forall (float : Type) (model : SentenceTransformer float) (df : list Row)
                (model_name prefix : str) (prefix_description : option str),
          tokenizer model = tk ->
          main model (Some df) model_name prefix prefix_description =
          Ok (output_name model_name prefix prefix_description,
              process_loop model 510 prefix df [])).
Proof.
  unfold find_max_tokens. split; [|split].
  - intros Hle [u ->]. rewrite Z.gtb_ltb.
    destruct (Z.ltb_spec 9000 (model_max_length tk)); [lia|reflexivity].
  - intros Hgt. rewrite Z.gtb_ltb.
    destruct (Z.ltb_spec 9000 (model_max_length tk)); [|lia].
    destruct (tokenizer_call tk _); reflexivity.
  - intros [e He]. split; [rewrite He; reflexivity|].
    intros float model df model_name prefix prefix_description Htk.
    unfold main. rewrite Htk. unfold find_max_tokens. rewrite He. reflexivity.
Qed.

Lemma find_max_tokens_cases_witness :
  find_max_tokens {| model_max_length := 512; tokenizer_call := fun _ => Ok tt |} = 512%Z
  /\ find_max_tokens {| model_max_length := 10 ^ 30; tokenizer_call := fun _ => Ok tt |}
     = 510%Z
  /\ find_max_tokens {| model_max_length := 8192;
                        tokenizer_call := fun _ => Raise (Exception "no vocabulary") |}
     = 510%Z.
Proof.
  split; [|split].
  - apply (proj1 (find_max_tokens_cases
                    {| model_max_length := 512; tokenizer_call := fun _ => Ok tt |})).
    + simpl. lia.
    + exists tt. reflexivity.
  - apply (proj1 (proj2 (find_max_tokens_cases
                    {| model_max_length := 10 ^ 30; tokenizer_call := fun _ => Ok tt |}))).
    simpl. lia.
  - apply (proj2 (proj2 (find_max_tokens_cases
                    {| model_max_length := 8192;
                       tokenizer_call := fun _ => Raise (Exception "no vocabulary") |}))).
    exists (Exception "no vocabulary"). reflexivity.
Defined.

(** *** C8: the name of the output directory *)

Lemma hex8_length (x : Z) : length (SHA256.hex8 x) = 8.
Proof. unfold SHA256.hex8. rewrite length_map, length_rev, length_seq. reflexivity. Qed.

Lemma hash_prompt_length (prompt : str) : length (hash_prompt prompt) = 8.
Proof.
  unfold hash_prompt, SHA256.hexdigest.
  generalize (SHA256.digest (encode_utf8 prompt)). intros h.
  rewrite firstn_app, hex8_length, Nat.sub_diag, firstn_O, app_nil_r.
  rewrite firstn_all2 by (rewrite hex8_length; lia).
  apply hex8_length.
Qed.

(** C8.  The name of the output directory of a run is determined by the
    model identifier, the prefix and the prefix description: two runs
    that agree on them agree on the name, whatever the model and the
    input table are.  With a prefix and no description the name ends
    in the hash of the prefix, of eight characters. *)
Theorem output_name_deterministic :
  (forall (float : Type) (model1 model2 : SentenceTransformer float)
          (df1 df2 : list Row) (model_name prefix : str)
          (prefix_description : option str)
          (run1 run2 : str * list (ProcessedArticle float)),
      main model1 (Some df1) model_name prefix prefix_description = Ok run1 ->
      main model2 (Some df2) model_name prefix prefix_description = Ok run2 ->
      fst run1 = fst run2
      /\ fst run1 = output_name model_name prefix prefix_description)
  /\ (forall (model_name prefix : str) (prefix_description : option str),
         prefix <> [] ->
         option_truthy prefix_description = false ->
         output_name model_name prefix prefix_description =
         lit "emb__" ++ replace_char "/"%char (lit "__") model_name
             ++ lit "_" ++ hash_prompt prefix
         /\ length (hash_prompt prefix) = 8)
  /\ (forall (model_name prefix description : str),
         prefix <> [] ->
         description <> [] ->
         output_name model_name prefix (Some description) =
         lit "emb__" ++ replace_char "/"%char (lit "__") model_name
             ++ lit "_" ++ description).
Proof.
  split; [|split].
  - intros float model1 model2 df1 df2 model_name prefix descr run1 run2 H1 H2.
    unfold main in *. injection H1 as <-. injection H2 as <-. split; reflexivity.
  - intros model_name prefix descr Hp Hd. split; [|apply hash_prompt_length].
    unfold output_name. rewrite Hd.
    destruct prefix; [contradiction|reflexivity].
  - intros model_name prefix descr Hp Hd.
    unfold output_name.
    destruct prefix; [contradiction|]. destruct descr; [contradiction|reflexivity].
Qed.

Lemma output_name_deterministic_witness :
  output_name (lit "intfloat/multilingual-e5-large") (lit "Query: ") None =
  lit "emb__intfloat__multilingual-e5-large_597369d1"
  /\ output_name (lit "intfloat/multilingual-e5-large") (lit "Query: ")
                 (Some (lit "query")) =
     lit "emb__intfloat__multilingual-e5-large_query".
Proof.
  split.
  - rewrite (proj1 (proj1 (proj2 output_name_deterministic)
                      (lit "intfloat/multilingual-e5-large") (lit "Query: ") None
                      ltac:(discriminate) eq_refl)).
    vm_compute. reflexivity.
  - apply (proj2 (proj2 output_name_deterministic)); discriminate.
Defined.

(** *** C10: what is passed to [encode] *)

Lemma embed_loop_map (float : Type) (model : SentenceTransformer float)
      (prefix : str) (chunks : list str) (embeddings : list (list float)) :
  embed_loop model prefix chunks embeddings =
  match map_result (encode model) (map (encode_input prefix) chunks) with
  | Ok embs => Ok (embeddings ++ embs)
  | Raise e => Raise e
  end.
Proof.
  assert (E : forall chunk,
             (if truthy prefix then prefix ++ lit " " ++ chunk else chunk)
             = encode_input prefix chunk) by (intros; destruct prefix; reflexivity).
  revert embeddings. induction chunks as [|chunk chunks IH]; intros embeddings.
  - simpl. rewrite app_nil_r. reflexivity.
  - cbn [embed_loop map map_result bind Monad_result].
    rewrite <- (E chunk).
    destruct (encode model _) as [emb|e]; [|reflexivity].
    rewrite IH. destruct (map_result _ _); [|reflexivity].
    rewrite <- app_assoc. reflexivity.
Qed.

(** C10.  The texts passed to [encode] are, chunk by chunk, the prefix,
    one space and the chunk when the prefix is not empty, and the chunk
    itself when it is; the default prefix, which ends in a space, is
    followed by two spaces. *)
Theorem encode_receives_prefix_space_chunk :
  (forall (float : Type) (model : SentenceTransformer float)
          (prefix : str) (chunks : list str),
      embed model prefix chunks =
      map_result (encode model) (map (encode_input prefix) chunks))
  /\ (forall prefix chunk : str,
         prefix <> [] -> encode_input prefix chunk = prefix ++ SPACE :: chunk)
  /\ (forall chunk : str, encode_input [] chunk = chunk)
  /\ (forall chunk : str,
         encode_input (lit "Query: ") chunk = lit "Query:  " ++ chunk).
Proof.
  split; [|split; [|split]].
  - intros float model prefix chunks. unfold embed. rewrite embed_loop_map.
    destruct (map_result _ _); reflexivity.
  - intros prefix chunk Hp. destruct prefix; [contradiction|reflexivity].
  - reflexivity.
  - reflexivity.
Qed.

Lemma encode_receives_prefix_space_chunk_witness :
  encode_input (lit "passage:") (lit "A. B.") = lit "passage: A. B.".
Proof.
  rewrite (proj1 (proj2 encode_receives_prefix_space_chunk)) by discriminate.
  reflexivity.
Defined.

(** *** C9: a record that fails is skipped *)

Section SkipOnError.

Variable float : Type.
Variable model : SentenceTransformer float.
Variable max_tokens : Z.
Variable prefix : str.

Abbreviation run_loop := (process_loop model max_tokens prefix).

Lemma process_loop_output rows processed_articles :
  run_loop rows processed_articles = processed_articles ++ run_loop rows [].
Proof.
  revert processed_articles. induction rows as [|row rows IH]; intros acc; simpl.
  - rewrite app_nil_r. reflexivity.
  - destruct (preprocess model max_tokens (row_text row)) as [chunks|e]; [|apply IH].
    destruct (embed model prefix chunks) as [embeddings|e]; [|apply IH].
    rewrite (IH (acc ++ _)), (IH [_]), app_assoc. reflexivity.
Qed.

Lemma process_loop_app rows1 rows2 :
  run_loop (rows1 ++ rows2) [] = run_loop rows1 [] ++ run_loop rows2 [].
Proof.
  induction rows1 as [|row rows1 IH]; [reflexivity|]. simpl.
  destruct (preprocess model max_tokens (row_text row)) as [chunks|e]; [|apply IH].
  destruct (embed model prefix chunks) as [embeddings|e]; [|apply IH].
  rewrite process_loop_output, (process_loop_output rows1), IH, app_assoc.
  reflexivity.
Qed.

Lemma process_loop_skip row rows :
  row_fails model max_tokens prefix row ->
  run_loop (row :: rows) [] = run_loop rows [].
Proof.
  intros [[e He]|(chunks & e & Hc & He)]; simpl.
  - rewrite He. reflexivity.
  - rewrite Hc, He. reflexivity.
Qed.

Lemma process_loop_keep row rows chunks embeddings :
  preprocess model max_tokens (row_text row) = Ok chunks ->
  embed model prefix chunks = Ok embeddings ->
  run_loop (row :: rows) [] =
  {| article_id := str_of_value (row_article_id row);
     chunk := chunks; embedding := embeddings |} :: run_loop rows [].
Proof.
  intros Hc He. simpl. rewrite Hc, He. rewrite process_loop_output. reflexivity.
Qed.

End SkipOnError.

(** C9.  A row for which the preprocessing or the embedding raises
    leaves nothing in the output, and the rows before and after it give
    what they give without it, in the same order; a row for which both
    succeed gives one article, between those of the rows before it and
    those of the rows after it. *)
Theorem failed_record_is_skipped
        (float : Type) (model : SentenceTransformer float)
        (max_tokens : Z) (prefix : str) (before after : list Row) (row : Row) :
  (row_fails model max_tokens prefix row ->
   process_loop model max_tokens prefix (before ++ row :: after) [] =
   process_loop model max_tokens prefix before []
   ++ process_loop model max_tokens prefix after [])
  /\ (forall chunks embeddings,
         preprocess model max_tokens (row_text row) = Ok chunks ->
         embed model prefix chunks = Ok embeddings ->
         process_loop model max_tokens prefix (before ++ row :: after) [] =
         process_loop model max_tokens prefix before []
         ++ {| article_id := str_of_value (row_article_id row);
               chunk := chunks; embedding := embeddings |}
         :: process_loop model max_tokens prefix after []).
Proof.
  split.
  - intros Hfail. rewrite process_loop_app.
    rewrite (@process_loop_skip float model max_tokens prefix row after Hfail).
    reflexivity.
  - intros chunks embeddings Hc He. rewrite process_loop_app.
    rewrite (@process_loop_keep float model max_tokens prefix row after _ _ Hc He).
    reflexivity.
Qed.

Lemma failed_record_is_skipped_witness :
  process_loop refusing_model 512 [] three_rows [] =
  [ {| article_id := lit "1"; chunk := [lit "First."]; embedding := [[6%Z]] |};
    {| article_id := lit "3"; chunk := [lit "Third."]; embedding := [[6%Z]] |} ].
Proof.
  change three_rows with
    ([ {| row_article_id := VInt 1; row_text := VStr (lit "First.") |} ]
     ++ {| row_article_id := VInt 2; row_text := VStr (lit "Second.") |}
     :: [ {| row_article_id := VInt 3; row_text := VStr (lit "Third.") |} ]).
  rewrite (proj1 (@failed_record_is_skipped Z refusing_model 512 []
                    [ {| row_article_id := VInt 1; row_text := VStr (lit "First.") |} ]
                    [ {| row_article_id := VInt 3; row_text := VStr (lit "Third.") |} ]
                    {| row_article_id := VInt 2; row_text := VStr (lit "Second.") |})).
  - reflexivity.
  - right. exists [lit "Second."], (Exception "out of memory"). split; reflexivity.
Defined.

(** A row whose text is not a string fails in the preprocessing. *)
Example missing_text_is_skipped :
  process_loop refusing_model 512 []
    [ {| row_article_id := VInt 1; row_text := VNaN |};
      {| row_article_id := VStr (lit "b"); row_text := VStr (lit "Kept. As  one .") |} ] [] =
  [ {| article_id := lit "b"; chunk := [lit "Kept. As one."]; embedding := [[13%Z]] |} ].
Proof. reflexivity. Qed.

(** * Further properties *)

(** ** The chunker packs greedily *)

Section Packing.

Variable tok : str -> nat.
Variable max_tokens : Z.

Abbreviation p_split_loop := (split_long_loop (M:=Id) tok max_tokens).
Abbreviation p_loop := (chunk_loop (M:=Id) tok max_tokens).

(** Once the buffer is not empty the two loops are the same loop. *)
Lemma loops_agree (items : list str) :
  forall out x current len,
    p_loop items out (x :: current) len = p_split_loop items out (x :: current) len.
Proof.
  induction items as [|s ss IH]; intros out x cur len; [reflexivity|].
  rewrite loop_cons, split_loop_cons.
  destruct (Z.of_nat (len + tok s) >? max_tokens)%Z.
  - apply IH.
  - apply (IH out x (cur ++ [s])).
Qed.

Lemma loop_groups (items : list str) :
  forall x current len,
    len = token_sum tok (x :: current) ->
    group_ok tok max_tokens (x :: current) ->
    exists g gs,
      p_loop items [] (x :: current) len
      = map (join [SPACE]) ((x :: current ++ g) :: gs)
      /\ concat ((x :: current ++ g) :: gs) = x :: current ++ items
      /\ packed tok max_tokens ((x :: current ++ g) :: gs).
Proof.
  induction items as [|s ss IH]; intros x cur len Hlen Hok.
  - exists [], []. rewrite loop_nil, !app_nil_r. simpl. rewrite app_nil_r.
    repeat split. constructor; [discriminate|exact Hok].
  - rewrite loop_cons, Z.gtb_ltb.
    destruct (Z.ltb_spec max_tokens (Z.of_nat (len + tok s))) as [Hover|Hfits].
    + destruct (IH s [] (tok s)) as (g & gs & E & Hc & Hp).
      * unfold token_sum. simpl. lia.
      * right. exists s. reflexivity.
      * simpl app in E, Hc, Hp.
        exists [], ((s :: g) :: gs). rewrite app_nil_r.
        rewrite loop_output, E. split; [reflexivity|]. split.
        -- change (concat ((x :: cur) :: (s :: g) :: gs))
             with ((x :: cur) ++ concat ((s :: g) :: gs)).
           rewrite Hc. reflexivity.
        -- constructor; [discriminate|exact Hok|rewrite <- Hlen; exact Hover|exact Hp].
    + destruct (IH x (cur ++ [s]) (len + tok s)) as (g & gs & E & Hc & Hp).
      * subst len. unfold token_sum. simpl. rewrite map_app, list_sum_app. simpl. lia.
      * left. subst len. unfold token_sum in *. simpl in *.
        rewrite map_app, list_sum_app. simpl. lia.
      * exists (s :: g), gs.
        rewrite <- app_assoc in E, Hc, Hp. simpl app in E, Hc, Hp.
        change ((x :: cur) ++ [s]) with (x :: cur ++ [s]).
        rewrite E. split; [reflexivity|]. split; [|exact Hp].
        rewrite Hc, <- app_assoc. reflexivity.
Qed.

End Packing.

Lemma chunk_sentences_packed (tok : str -> nat) (max_tokens : Z) (sentences : list str) :
  exists groups,
    packed tok max_tokens groups
    /\ concat groups = sentences
    /\ chunk_sentences (M:=Id) tok max_tokens sentences =
       match sentences with
       | sentence :: _ =>
           if (Z.of_nat (tok sentence) >? max_tokens)%Z
           then split_long_sentence (M:=Id) tok max_tokens sentence
           else []
       | [] => []
       end ++ map (join [SPACE]) groups.
Proof.
  destruct sentences as [|s ss].
  - exists []. repeat split. constructor.
  - unfold chunk_sentences. rewrite loop_cons. simpl Nat.add.
    destruct (Z.of_nat (tok s) >? max_tokens)%Z eqn:Hover.
    + destruct (@loop_groups tok max_tokens ss s [] (tok s)) as (g & gs & E & Hc & Hp).
      * unfold token_sum. simpl. lia.
      * right. exists s. reflexivity.
      * exists ((s :: g) :: gs). simpl app in *.
        rewrite loop_output, E. repeat split; assumption.
    + destruct (@loop_groups tok max_tokens ss s [] (tok s)) as (g & gs & E & Hc & Hp).
      * unfold token_sum. simpl. lia.
      * left. unfold token_sum. simpl. rewrite Z.gtb_ltb in Hover.
        apply Z.ltb_ge in Hover. lia.
      * exists ((s :: g) :: gs). simpl app in *.
        rewrite E. repeat split; assumption.
Qed.

Lemma split_long_sentence_packed (tok : str -> nat) (max_tokens : Z) (sentence : str) :
  exists groups,
    packed tok max_tokens groups
    /\ concat groups = split sentence
    /\ split_long_sentence (M:=Id) tok max_tokens sentence =
       match split sentence with
       | word :: _ => if (Z.of_nat (tok word) >? max_tokens)%Z then [[]] else []
       | [] => []
       end ++ map (join [SPACE]) groups.
Proof.
  unfold split_long_sentence. destruct (split sentence) as [|w ws].
  - exists []. repeat split. constructor.
  - rewrite split_loop_cons. simpl Nat.add.
    destruct (Z.of_nat (tok w) >? max_tokens)%Z eqn:Hover.
    + destruct (@loop_groups tok max_tokens ws w [] (tok w)) as (g & gs & E & Hc & Hp).
      * unfold token_sum. simpl. lia.
      * right. exists w. reflexivity.
      * exists ((w :: g) :: gs). simpl app in *.
        rewrite <- loops_agree, loop_output, E. repeat split; assumption.
    + destruct (@loop_groups tok max_tokens ws w [] (tok w)) as (g & gs & E & Hc & Hp).
      * unfold token_sum. simpl. lia.
      * left. unfold token_sum. simpl. rewrite Z.gtb_ltb in Hover.
        apply Z.ltb_ge in Hover. lia.
      * exists ((w :: g) :: gs). simpl app in *.
        rewrite <- loops_agree, E. repeat split; assumption.
Qed.

Lemma packed_groups (tok : str -> nat) (max_tokens : Z) (groups : list (list str)) :
  packed tok max_tokens groups ->
  Forall (fun g => g <> [] /\ group_ok tok max_tokens g) groups.
Proof.
  induction 1; constructor; try (split; assumption); try assumption. constructor.
Qed.

Lemma join_nonempty (sep x : str) (g : list str) :
  x <> [] -> join sep (x :: g) <> [].
Proof.
  intros Hx. destruct g as [|y g]; [exact Hx|].
  change (join sep (x :: y :: g)) with (x ++ sep ++ join sep (y :: g)).
  destruct x; [contradiction|discriminate].
Qed.

Lemma joined_groups_nonempty (tok : str -> nat) (max_tokens : Z)
      (groups : list (list str)) :
  packed tok max_tokens groups ->
  Forall (fun s => s <> []) (concat groups) ->
  ~ In [] (map (join [SPACE]) groups).
Proof.
  intros Hp Hne Hin. apply in_map_iff in Hin. destruct Hin as (g & Hj & Hg).
  pose proof (packed_groups Hp) as Hall.
  rewrite Forall_forall in Hall. destruct (Hall g Hg) as [Hg0 _].
  destruct g as [|x g]; [contradiction|].
  apply (@join_nonempty [SPACE] x g); [|exact Hj].
  rewrite Forall_forall in Hne. apply Hne.
  apply in_concat. exists (x :: g). split; [exact Hg|left; reflexivity].
Qed.

Lemma wordlike_nonempty (ws : list str) :
  Forall wordlike ws -> Forall (fun s => s <> []) ws.
Proof. apply Forall_impl. intros w [H _]. exact H. Qed.

(** X1.  The chunks are the joined groups of a greedy packing of the
    sentences, none lost, none repeated, in order; when the first
    sentence is over the budget its word-level parts come before
    them. *)
Theorem chunks_are_packed_groups (tok : str -> nat) (max_tokens : Z) (sentences : list str) :
  exists groups,
    packed tok max_tokens groups
    /\ concat groups = sentences
    /\ chunk_sentences (M:=Id) tok max_tokens sentences =
       match sentences with
       | sentence :: _ =>
           if (Z.of_nat (tok sentence) >? max_tokens)%Z
           then split_long_sentence (M:=Id) tok max_tokens sentence
           else []
       | [] => []
       end ++ map (join [SPACE]) groups.
Proof. apply chunk_sentences_packed. Qed.

(** X2.  The parts of the word-level splitter are the joined groups of
    a greedy packing of the words; when the first word is over the
    budget an empty part comes before them. *)
Theorem parts_are_packed_groups (tok : str -> nat) (max_tokens : Z) (sentence : str) :
  exists groups,
    packed tok max_tokens groups
    /\ concat groups = split sentence
    /\ split_long_sentence (M:=Id) tok max_tokens sentence =
       match split sentence with
       | word :: _ => if (Z.of_nat (tok word) >? max_tokens)%Z then [[]] else []
       | [] => []
       end ++ map (join [SPACE]) groups.
Proof. apply split_long_sentence_packed. Qed.

(** X3.  When no sentence is over the budget, the chunks are the
    joined groups of a partition of the sentences into non-empty runs
    whose token counts sum to at most the budget, whatever the
    tokenizer counts for the joined text. *)
Theorem chunks_partition_within_sum (tok : str -> nat) (max_tokens : Z)
        (sentences : list str) :
  Forall (within_budget tok max_tokens) sentences ->
  exists groups,
    concat groups = sentences
    /\ chunk_sentences (M:=Id) tok max_tokens sentences = map (join [SPACE]) groups
    /\ Forall (fun g => g <> [] /\ (Z.of_nat (token_sum tok g) <= max_tokens)%Z) groups.
Proof.
  intros Hfit.
  destruct (chunk_sentences_packed tok max_tokens sentences) as (groups & Hp & Hc & E).
  exists groups. split; [exact Hc|]. split.
  - rewrite E. destruct sentences as [|s ss]; [reflexivity|].
    inversion Hfit as [|? ? Hs _]. unfold within_budget in Hs.
    rewrite Z.gtb_ltb. destruct (Z.ltb_spec max_tokens (Z.of_nat (tok s))); [lia|].
    reflexivity.
  - pose proof (packed_groups Hp) as Hall.
    rewrite Forall_forall in *. intros g Hg. destruct (Hall g Hg) as [Hne Hok].
    split; [exact Hne|]. destruct Hok as [Hsum|[s ->]]; [exact Hsum|].
    assert (Hin : In s sentences).
    { rewrite <- Hc. apply in_concat. exists [s]. split; [exact Hg|left; reflexivity]. }
    specialize (Hfit s Hin). unfold within_budget in Hfit.
    unfold token_sum. simpl. lia.
Qed.

Lemma chunks_partition_within_sum_witness :
  exists groups,
    concat groups = [lit "A."; lit "B."; lit "Cd."]
    /\ chunk_sentences (M:=Id) char_tokens 4 [lit "A."; lit "B."; lit "Cd."]
       = map (join [SPACE]) groups
    /\ Forall (fun g => g <> [] /\ (Z.of_nat (token_sum char_tokens g) <= 4)%Z) groups.
Proof.
  apply chunks_partition_within_sum.
  repeat constructor; unfold within_budget; simpl; lia.
Defined.

(** X4.  With sentences that are not empty, the chunker returns an
    empty chunk exactly when the first sentence is over the budget and
    so is its first word. *)
Theorem empty_chunk_iff_first_word_over_budget (tok : str -> nat) (max_tokens : Z)
        (sentences : list str) :
  Forall (fun s => s <> []) sentences ->
  (In [] (chunk_sentences (M:=Id) tok max_tokens sentences)
   <-> exists sentence rest word words,
       sentences = sentence :: rest
       /\ split sentence = word :: words
       /\ (max_tokens < Z.of_nat (tok sentence))%Z
       /\ (max_tokens < Z.of_nat (tok word))%Z).
Proof.
  intros Hne.
  destruct (chunk_sentences_packed tok max_tokens sentences) as (groups & Hp & Hc & E).
  assert (Hgroups : ~ In [] (map (join [SPACE]) groups)).
  { apply (joined_groups_nonempty Hp). rewrite Hc. exact Hne. }
  rewrite E. split.
  - intros Hin. apply in_app_or in Hin. destruct Hin as [Hin|Hin]; [|contradiction].
    destruct sentences as [|s ss]; [contradiction|].
    rewrite Z.gtb_ltb in Hin.
    destruct (Z.ltb_spec max_tokens (Z.of_nat (tok s))) as [Hs|_]; [|contradiction].
    destruct (split_long_sentence_packed tok max_tokens s) as (wgroups & Hwp & Hwc & Ew).
    rewrite Ew in Hin. apply in_app_or in Hin. destruct Hin as [Hin|Hin].
    + destruct (split s) as [|w ws] eqn:Hsplit; [contradiction|].
      rewrite Z.gtb_ltb in Hin.
      destruct (Z.ltb_spec max_tokens (Z.of_nat (tok w))) as [Hw|_]; [|contradiction].
      exists s, ss, w, ws. repeat split; assumption.
    + exfalso. revert Hin. apply (joined_groups_nonempty Hwp).
      rewrite Hwc. apply wordlike_nonempty, split_words_wordlike.
  - intros (s & ss & w & ws & -> & Hsplit & Hs & Hw).
    apply in_or_app. left.
    rewrite Z.gtb_ltb. destruct (Z.ltb_spec max_tokens (Z.of_nat (tok s))); [|lia].
    destruct (split_long_sentence_packed tok max_tokens s) as (wgroups & _ & _ & Ew).
    rewrite Ew, Hsplit, Z.gtb_ltb.
    destruct (Z.ltb_spec max_tokens (Z.of_nat (tok w))); [|lia].
    left. reflexivity.
Qed.

Lemma empty_chunk_iff_first_word_over_budget_witness :
  ~ In [] (chunk_sentences (M:=Id) char_tokens 8 [lit "Hello world."; lit "Bye."]).
Proof.
  intros Hin.
  apply (@empty_chunk_iff_first_word_over_budget char_tokens 8
           [lit "Hello world."; lit "Bye."]) in Hin.
  - destruct Hin as (s & ss & w & ws & E & Hsplit & _ & Hw).
    injection E as <- <-. vm_compute in Hsplit. injection Hsplit as <- _.
    vm_compute in Hw. discriminate.
  - repeat constructor; discriminate.
Defined.

(** X5.  The chunker returns no chunk only for no sentence. *)
Theorem no_chunks_iff_no_sentences (tok : str -> nat) (max_tokens : Z)
        (sentences : list str) :
  chunk_sentences (M:=Id) tok max_tokens sentences = [] <-> sentences = [].
Proof.
  split; [|intros ->; reflexivity].
  destruct (chunk_sentences_packed tok max_tokens sentences) as (groups & Hp & Hc & E).
  rewrite E. intros H. apply app_eq_nil in H. destruct H as [_ H].
  apply map_eq_nil in H. subst groups. symmetry. exact Hc.
Qed.

(** X6.  When the token counts of all the sentences sum to at most the
    budget, the chunker returns the one chunk of all of them joined. *)
Theorem single_chunk_when_all_fit (tok : str -> nat) (max_tokens : Z)
        (sentences : list str) :
  sentences <> [] ->
  (Z.of_nat (token_sum tok sentences) <= max_tokens)%Z ->
  chunk_sentences (M:=Id) tok max_tokens sentences = [join [SPACE] sentences].
Proof.
  intros Hne Hsum. unfold chunk_sentences.
  assert (Hloop : forall ss current len,
             len = token_sum tok current ->
             (Z.of_nat (token_sum tok (current ++ ss)) <= max_tokens)%Z ->
             chunk_loop (M:=Id) tok max_tokens ss [] current len
             = flush [] (current ++ ss)).
  { induction ss as [|s ss IH]; intros cur len Hlen Hle.
    - rewrite loop_nil, app_nil_r. reflexivity.
    - rewrite loop_cons, Z.gtb_ltb.
      unfold token_sum in Hle. rewrite map_app, list_sum_app in Hle. simpl in Hle.
      destruct (Z.ltb_spec max_tokens (Z.of_nat (len + tok s))) as [Hover|_].
      + unfold token_sum in Hlen. lia.
      + rewrite IH.
        * rewrite <- app_assoc. reflexivity.
        * subst len. unfold token_sum. rewrite map_app, list_sum_app. simpl. lia.
        * rewrite <- app_assoc. simpl app. unfold token_sum.
          rewrite map_app, list_sum_app. simpl. lia. }
  rewrite (Hloop sentences [] 0 eq_refl Hsum). simpl app.
  destruct sentences; [contradiction|reflexivity].
Qed.

Lemma single_chunk_when_all_fit_witness :
  chunk_sentences (M:=Id) char_tokens 64
    [lit "This is sentence one."; lit "This is sentence two."]
  = [lit "This is sentence one. This is sentence two."].
Proof.
  rewrite single_chunk_when_all_fit; [reflexivity|discriminate|vm_compute; discriminate].
Defined.

(** X7.  The word-level splitter loses, repeats and reorders no word:
    the words of its parts are the words of the sentence. *)
Theorem parts_keep_the_words (tok : str -> nat) (max_tokens : Z) (sentence : str) :
  flat_map split (split_long_sentence (M:=Id) tok max_tokens sentence) = split sentence.
Proof. apply split_sentence_words. Qed.

(** ** The chunker and a tokenizer that may raise *)

Section FallibleTokenizer.

Variable tokenize : str -> result nat.
Variable max_tokens : Z.

Lemma split_long_loop_returns (tok : str -> nat) (words : list str) :
  (forall s, tokenize s = Ok (tok s)) ->
  forall parts current_part current_len,
    split_long_loop (M:=result) tokenize max_tokens words parts current_part current_len =
    Ok (split_long_loop (M:=Id) tok max_tokens words parts current_part current_len).
Proof.
  intros Htok. induction words as [|w ws IH]; intros parts cur len; [reflexivity|].
  simpl. rewrite Htok. simpl.
  destruct (Z.of_nat (len + tok w) >? max_tokens)%Z; apply IH.
Qed.

Lemma chunk_loop_returns (tok : str -> nat) (sentences : list str) :
  (forall s, tokenize s = Ok (tok s)) ->
  forall output current_chunk chunk_len,
    chunk_loop (M:=result) tokenize max_tokens sentences output current_chunk chunk_len =
    Ok (chunk_loop (M:=Id) tok max_tokens sentences output current_chunk chunk_len).
Proof.
  intros Htok. induction sentences as [|s ss IH]; intros out cur len; [reflexivity|].
  simpl. rewrite Htok. simpl.
  destruct (Z.of_nat (len + tok s) >? max_tokens)%Z; [destruct cur|].
  - unfold split_long_sentence. rewrite (split_long_loop_returns _ _ Htok). simpl. apply IH.
  - simpl. apply IH.
  - simpl. apply IH.
Qed.

Lemma chunk_loop_raises (sentences : list str) (s : str) (e : exn) :
  In s sentences -> tokenize s = Raise e ->
  forall output current_chunk chunk_len,
  exists e',
    chunk_loop (M:=result) tokenize max_tokens sentences output current_chunk chunk_len
    = Raise e'.
Proof.
  intros Hin Hs. induction sentences as [|s0 ss IH]; [contradiction|].
  intros out cur len. simpl.
  destruct (tokenize s0) as [n|e0] eqn:E0; [|exists e0; reflexivity].
  assert (Hin' : In s ss).
  { destruct Hin as [->|Hin]; [congruence|exact Hin]. }
  simpl.
  destruct (Z.of_nat (len + n) >? max_tokens)%Z; [destruct cur|].
  - destruct (split_long_sentence tokenize max_tokens s0) as [parts|e1];
      [|exists e1; reflexivity].
    simpl. apply (IH Hin').
  - simpl. apply (IH Hin').
  - simpl. apply (IH Hin').
Qed.

End FallibleTokenizer.

(** X8.  When the tokenizer raises for no text, the chunker raises for
    no sentence list, and returns the chunks computed with the token
    counts. *)
Theorem chunker_returns_when_tokenizer_does
        (tokenize : str -> result nat) (tok : str -> nat) (max_tokens : Z)
        (sentences : list str) :
  (forall s, tokenize s = Ok (tok s)) ->
  chunk_sentences (M:=result) tokenize max_tokens sentences =
  Ok (chunk_sentences (M:=Id) tok max_tokens sentences).
Proof. intros Htok. apply chunk_loop_returns, Htok. Qed.

Lemma chunker_returns_when_tokenizer_does_witness :
  chunk_sentences (M:=result) (fun s => Ok (length s)) 4 [lit "A."; lit "B."]
  = Ok [lit "A. B."].
Proof.
  rewrite (@chunker_returns_when_tokenizer_does _ char_tokens 4 [lit "A."; lit "B."]);
    reflexivity.
Defined.

(** X9.  When the tokenizer raises for one of the sentences, the
    chunker raises: no chunk is returned for the sentences before
    it. *)
Theorem chunker_raises_when_tokenizer_does
        (tokenize : str -> result nat) (max_tokens : Z)
        (sentences : list str) (s : str) (e : exn) :
  In s sentences -> tokenize s = Raise e ->
  exists e', chunk_sentences (M:=result) tokenize max_tokens sentences = Raise e'.
Proof.
  intros Hin Hs. unfold chunk_sentences.
  eapply chunk_loop_raises; eassumption.
Qed.

Lemma chunker_raises_when_tokenizer_does_witness :
  exists e',
    chunk_sentences (M:=result)
      (fun s => if list_eq_dec ascii_dec s (lit "B.")
                then Raise (Exception "unknown symbol") else Ok (length s))
      4 [lit "A."; lit "B."; lit "C."] = Raise e'.
Proof.
  apply chunker_raises_when_tokenizer_does
    with (s := lit "B.") (e := Exception "unknown symbol").
  - right. left. reflexivity.
  - reflexivity.
Defined.

(** ** What the normaliser keeps and what it leaves *)

Lemma nonspace_app (a b : str) : nonspace (a ++ b) = nonspace a ++ nonspace b.
Proof. apply filter_app. Qed.

Lemma nonspace_cons (c : ascii) (s : str) :
  nonspace (c :: s) = if isspace c then nonspace s else c :: nonspace s.
Proof. unfold nonspace. simpl. destruct (isspace c); reflexivity. Qed.

Lemma nonspace_lstrip (s : str) : nonspace (lstrip s) = nonspace s.
Proof.
  induction s as [|c s IH]; [reflexivity|].
  simpl lstrip. rewrite (nonspace_cons c s).
  destruct (isspace c) eqn:Hc; [exact IH|].
  rewrite nonspace_cons, Hc. reflexivity.
Qed.

Lemma nonspace_rev (s : str) : nonspace (rev s) = rev (nonspace s).
Proof.
  induction s as [|c s IH]; [reflexivity|].
  simpl rev. rewrite nonspace_app, IH, !nonspace_cons.
  destruct (isspace c); simpl; [rewrite app_nil_r|]; reflexivity.
Qed.

Lemma nonspace_strip (s : str) : nonspace (strip s) = nonspace s.
Proof.
  unfold strip, rstrip.
  rewrite nonspace_rev, nonspace_lstrip, nonspace_rev, rev_involutive.
  apply nonspace_lstrip.
Qed.

Lemma nonspace_replace_newline (s : str) :
  nonspace (replace_char NEWLINE [SPACE] s) = nonspace s.
Proof.
  induction s as [|c s IH]; [reflexivity|].
  unfold replace_char in *. simpl flat_map. rewrite nonspace_app, IH, nonspace_cons.
  destruct (Ascii.eqb_spec c NEWLINE) as [->|_]; [reflexivity|].
  rewrite nonspace_cons. destruct (isspace c); reflexivity.
Qed.

Lemma nonspace_sub_spaces (s : str) :
  nonspace (sub_spaces s) = nonspace s
  /\ nonspace (sub_spaces (lstrip s)) = nonspace s.
Proof.
  induction s as [|c s [IH1 IH2]]; [split; reflexivity|].
  assert (H1 : nonspace (sub_spaces (c :: s)) = nonspace (c :: s)).
  { rewrite sub_spaces_cons, (nonspace_cons c s).
    destruct (isspace c) eqn:Hc.
    - rewrite nonspace_cons. exact IH2.
    - rewrite nonspace_cons, Hc, IH1. reflexivity. }
  split; [exact H1|].
  simpl lstrip. destruct (isspace c) eqn:Hc; [|exact H1].
  rewrite nonspace_cons, Hc. exact IH2.
Qed.

Lemma nonspace_sub_before (s : str) :
  nonspace (sub_before s) = nonspace s
  /\ nonspace (sub_before (tl (lstrip s))) = nonspace (tl (lstrip s)).
Proof.
  induction s as [|c s [IH1 IH2]]; [split; reflexivity|].
  assert (H1 : nonspace (sub_before (c :: s)) = nonspace (c :: s)).
  { rewrite sub_before_cons, (nonspace_cons c s).
    destruct (isspace c) eqn:Hc.
    - destruct (lstrip s) as [|p r] eqn:E.
      + rewrite nonspace_cons, Hc. exact IH1.
      + destruct (ispunct p) eqn:Hp.
        * simpl tl in IH2. rewrite <- (nonspace_lstrip s), E.
          rewrite !nonspace_cons, (punct_not_space p Hp), IH2. reflexivity.
        * rewrite nonspace_cons, Hc. exact IH1.
    - rewrite nonspace_cons, Hc, IH1. reflexivity. }
  split; [exact H1|].
  simpl lstrip. destruct (isspace c); [exact IH2|exact IH1].
Qed.

Lemma run_isspace_zero (s : str) : run isspace s = 0 -> lstrip s = s.
Proof.
  destruct s as [|c s]; [reflexivity|]. simpl.
  destruct (isspace c); [discriminate|reflexivity].
Qed.

Lemma nonspace_sub_after (s : str) :
  nonspace (sub_after s) = nonspace s
  /\ nonspace (sub_after (lstrip s)) = nonspace s.
Proof.
  induction s as [|c s [IH1 IH2]]; [split; reflexivity|].
  assert (H1 : nonspace (sub_after (c :: s)) = nonspace (c :: s)).
  { rewrite sub_after_cons, (nonspace_cons c s).
    destruct (ispunct c) eqn:Hp.
    - rewrite (punct_not_space c Hp).
      destruct (run isspace s) eqn:Hr.
      + rewrite nonspace_cons, (punct_not_space c Hp), IH1. reflexivity.
      + rewrite nonspace_cons, (punct_not_space c Hp), nonspace_cons.
        change (isspace SPACE) with true. cbv iota. rewrite IH2. reflexivity.
    - rewrite nonspace_cons, IH1. reflexivity. }
  split; [exact H1|].
  simpl lstrip. destruct (isspace c) eqn:Hc; [|exact H1].
  rewrite nonspace_cons, Hc. exact IH2.
Qed.

Lemma nonspace_clean_whitespace (s : str) :
  nonspace (clean_whitespace s) = nonspace s.
Proof.
  unfold clean_whitespace.
  rewrite nonspace_strip, (proj1 (nonspace_sub_after _)),
    (proj1 (nonspace_sub_before _)), (proj1 (nonspace_sub_spaces _)).
  apply nonspace_replace_newline.
Qed.

(** X10.  The normaliser changes whitespace only: the characters that
    are not whitespace are those of the text, in the same order. *)
Theorem clean_whitespace_keeps_nonspace (s : str) :
  nonspace (clean_whitespace s) = nonspace s.
Proof. apply nonspace_clean_whitespace. Qed.

(** X11.  In a normalised text every whitespace character is a space
    that stands between two characters, the one before it not
    whitespace, the one after it neither whitespace nor one of
    [.,!?;:]. *)
Theorem clean_whitespace_spacing (s a b : str) (c : ascii) :
  clean_whitespace s = a ++ c :: b ->
  isspace c = true ->
  c = SPACE
  /\ (exists a' d, a = a' ++ [d] /\ isspace d = false)
  /\ (exists d b', b = d :: b' /\ isspace d = false /\ ispunct d = false).
Proof.
  intros E Hc. destruct (clean_whitespace_normal s) as [Ht [Hl Hr]].
  rewrite E in Ht, Hl, Hr.
  assert (Hcb := proj2 (tidy_app a (c :: b) Ht)).
  destruct Hcb as [Hhead _]. destruct (Hhead Hc) as (-> & Hn & Hp).
  split; [reflexivity|]. split.
  - destruct (rev a) as [|d ra] eqn:Ea.
    + apply (f_equal (@rev ascii)) in Ea. rewrite rev_involutive in Ea. subst a.
      simpl in Hl. rewrite Hl in Hc. discriminate.
    + apply (f_equal (@rev ascii)) in Ea. rewrite rev_involutive in Ea. simpl in Ea.
      exists (rev ra), d. split; [exact Ea|].
      subst a. rewrite <- app_assoc in Ht. simpl in Ht.
      apply tidy_app in Ht. destruct Ht as [_ [Hd _]].
      destruct (isspace d) eqn:Hdw; [|reflexivity].
      destruct (Hd eq_refl) as (_ & Hns & _). simpl in Hns. rewrite Hns in Hc. discriminate.
  - destruct b as [|d b'].
    + rewrite rev_app_distr in Hr. simpl in Hr. rewrite Hr in Hc. discriminate.
    + exists d, b'. simpl in Hn, Hp. repeat split; assumption.
Qed.

Lemma clean_whitespace_spacing_witness :
  exists a' d, lit "Hello," = a' ++ [d] /\ isspace d = false.
Proof.
  apply (@clean_whitespace_spacing (lit "Hello ,   world") (lit "Hello,") (lit "world") SPACE);
    reflexivity.
Defined.

(** X12.  The normaliser returns the empty string exactly for the
    texts that are whitespace throughout. *)
Theorem clean_whitespace_empty_iff_blank (s : str) :
  clean_whitespace s = [] <-> forallb isspace s = true.
Proof.
  assert (Hblank : forall t : str, nonspace t = [] <-> forallb isspace t = true).
  { induction t as [|c t IH]; [split; reflexivity|].
    rewrite nonspace_cons. simpl. destruct (isspace c); [exact IH|].
    split; discriminate. }
  rewrite <- Hblank, <- nonspace_clean_whitespace.
  split; [intros ->; reflexivity|].
  intros H. destruct (clean_whitespace_normal s) as [_ [Hl _]].
  destruct (clean_whitespace s) as [|c t]; [reflexivity|].
  simpl in Hl. rewrite nonspace_cons, Hl in H. discriminate.
Qed.

(** ** The sentences *)

Lemma terminal_not_space (c : ascii) : isterminal c = true -> isspace c = false.
Proof.
  destruct c as [[] [] [] [] [] [] [] []]; vm_compute; congruence.
Qed.

Lemma findall_sentences_matches (n : nat) :
  forall text : str,
    length text <= n ->
    Forall sentence_like (findall_sentences text)
    /\ length (findall_sentences text) = length (filter isterminal text)
    /\ exists tail, forallb nonterminal tail = true
                    /\ concat (findall_sentences text) ++ tail = text.
Proof.
  assert (Hnone : forall u, forallb nonterminal u = true -> filter isterminal u = []).
  { induction u as [|c u IH]; [reflexivity|]. simpl. unfold nonterminal at 1.
    destruct (isterminal c); [discriminate|]. exact IH. }
  induction n as [|n IH]; intros text Hn.
  - destruct text; [|simpl in Hn; lia].
    split; [constructor|]. split; [reflexivity|]. exists []. split; reflexivity.
  - destruct (first_terminal text) as [Hall|(a & q & r & -> & Ha & Hq)].
    + rewrite findall_sentences_none by exact Hall.
      split; [constructor|]. split; [rewrite Hnone by exact Hall; reflexivity|].
      exists text. split; [exact Hall|reflexivity].
    + rewrite findall_sentences_first by assumption.
      destruct (IH r) as (Hs & Hl & tail & Htail & Hc).
      { rewrite length_app in Hn. simpl in Hn. lia. }
      split; [|split].
      * constructor; [|exact Hs]. exists a, q. repeat split; assumption.
      * rewrite filter_app, (Hnone a Ha). simpl. rewrite Hq, Hl. reflexivity.
      * exists tail. split; [exact Htail|].
        simpl concat. rewrite <- !app_assoc. simpl. rewrite Hc. reflexivity.
Qed.

Lemma lstrip_app_nonspace (a : str) (p : ascii) :
  isspace p = false -> lstrip (a ++ [p]) = lstrip a ++ [p].
Proof.
  intros Hp. induction a as [|c a IH]; simpl.
  - rewrite Hp. reflexivity.
  - destruct (isspace c); [exact IH|reflexivity].
Qed.

Lemma rstrip_app_nonspace (a : str) (p : ascii) :
  isspace p = false -> rstrip (a ++ [p]) = a ++ [p].
Proof.
  intros Hp. unfold rstrip. rewrite rev_app_distr. simpl. rewrite Hp.
  simpl. rewrite rev_involutive. reflexivity.
Qed.

Lemma strip_sentence_like (body : str) (p : ascii) :
  isterminal p = true -> strip (body ++ [p]) = lstrip body ++ [p].
Proof.
  intros Hp. unfold strip.
  rewrite lstrip_app_nonspace, rstrip_app_nonspace by (apply terminal_not_space, Hp).
  reflexivity.
Qed.

Lemma lstrip_forallb (f : ascii -> bool) (s : str) :
  forallb f s = true -> forallb f (lstrip s) = true.
Proof.
  induction s as [|c s IH]; [trivial|]. simpl.
  destruct (isspace c); [|trivial].
  intros H. apply andb_true_iff in H. apply IH, H.
Qed.

Lemma simple_sentencize_keeps_matches (text : str) :
  simple_sentencize text = map strip (findall_sentences text).
Proof.
  unfold simple_sentencize. f_equal.
  destruct (@findall_sentences_matches (length text) text (le_n _)) as (Hs & _).
  induction Hs as [|m ms (body & p & -> & _ & Hp) _ IH]; [reflexivity|].
  simpl. rewrite (strip_sentence_like _ _ Hp), IH.
  destruct (lstrip body); reflexivity.
Qed.

(** X13.  Every sentence returned has no whitespace at either end and
    ends in its only terminal mark. *)
Theorem sentences_end_in_their_only_terminal_mark (text : str) :
  Forall (fun sentence => trimmed sentence /\ sentence_like sentence)
         (simple_sentencize text).
Proof.
  rewrite simple_sentencize_keeps_matches.
  destruct (@findall_sentences_matches (length text) text (le_n _)) as (Hs & _).
  apply Forall_map. revert Hs. apply Forall_impl.
  intros m (body & p & -> & Hb & Hp). split; [apply strip_trimmed|].
  rewrite (strip_sentence_like _ _ Hp).
  exists (lstrip body), p. repeat split; [apply lstrip_forallb, Hb|exact Hp].
Qed.

(** X14.  There is one sentence for each terminal mark of the text. *)
Theorem one_sentence_per_terminal_mark (text : str) :
  length (simple_sentencize text) = length (filter isterminal text).
Proof.
  rewrite simple_sentencize_keeps_matches, length_map.
  apply (@findall_sentences_matches (length text) text (le_n _)).
Qed.

(** X15.  Apart from whitespace, the sentences in order spell the text
    up to its last terminal mark: with what follows that mark, their
    characters that are not whitespace are those of the text. *)
Theorem sentences_spell_the_text (text : str) :
  exists tail,
    forallb nonterminal tail = true
    /\ nonspace (concat (simple_sentencize text)) ++ nonspace tail = nonspace text.
Proof.
  destruct (@findall_sentences_matches (length text) text (le_n _))
    as (_ & _ & tail & Htail & Hc).
  exists tail. split; [exact Htail|].
  rewrite simple_sentencize_keeps_matches.
  assert (Hstrip : forall ms : list str,
             nonspace (concat (map strip ms)) = nonspace (concat ms)).
  { induction ms as [|m ms IH]; [reflexivity|].
    simpl. rewrite !nonspace_app, nonspace_strip, IH. reflexivity. }
  rewrite Hstrip, <- nonspace_app, Hc. reflexivity.
Qed.

(** ** The budget, the hash and the directory name *)

(** X16.  The budget that [find_max_tokens] returns is at most 9000,
    and is the configured maximum or 510. *)
Theorem find_max_tokens_at_most_9000 (tk : Tokenizer) :
  (find_max_tokens tk <= 9000)%Z
  /\ (find_max_tokens tk = model_max_length tk \/ find_max_tokens tk = 510%Z).
Proof.
  unfold find_max_tokens. rewrite Z.gtb_ltb.
  destruct (Z.ltb_spec 9000 (model_max_length tk));
    destruct (tokenizer_call tk _); split; try lia; auto.
Qed.

Lemma hex8_digits (x : Z) : Forall (fun c => In c hex_digits) (SHA256.hex8 x).
Proof.
  unfold SHA256.hex8. apply Forall_map, Forall_forall. intros i _.
  unfold SHA256.hex_digit.
  destruct (nth_in_or_default (Z.to_nat ((x / 16 ^ Z.of_nat i) mod 16))
              (list_ascii_of_string "0123456789abcdef") "0"%char) as [H| ->].
  - exact H.
  - left. reflexivity.
Qed.

Lemma hash_prompt_hex8 (prompt : str) :
  exists x, hash_prompt prompt = SHA256.hex8 x.
Proof.
  unfold hash_prompt, SHA256.hexdigest.
  generalize (SHA256.digest (encode_utf8 prompt)). intros h.
  exists (SHA256.ra h).
  rewrite firstn_app, hex8_length, Nat.sub_diag, firstn_O, app_nil_r.
  apply firstn_all2. rewrite hex8_length. lia.
Qed.

(** X17.  The prompt hash is made of digits and of the letters a to f. *)
Theorem hash_prompt_is_hexadecimal (prompt : str) :
  Forall (fun c => In c hex_digits) (hash_prompt prompt).
Proof.
  destruct (hash_prompt_hex8 prompt) as [x ->]. apply hex8_digits.
Qed.

Lemma replace_char_app (a : ascii) (b s t : str) :
  replace_char a b (s ++ t) = replace_char a b s ++ replace_char a b t.
Proof. apply flat_map_app. Qed.

Lemma replace_slash_no_slash (s : str) :
  no_slash (replace_char "/"%char (lit "__") s) = true.
Proof.
  induction s as [|c s IH]; [reflexivity|].
  unfold replace_char in *. cbn [flat_map]. unfold no_slash in *.
  rewrite forallb_app, IH, andb_true_r.
  destruct (Ascii.eqb c "/"%char) eqn:E; [reflexivity|].
  simpl. rewrite E. reflexivity.
Qed.

(** X18.  When the description has no [/], the name of the output
    directory has none: the directory is a direct child of
    [output_dir]. *)
Theorem output_name_is_one_component
        (model_name prefix : str) (prefix_description : option str) :
  match prefix_description with
  | Some description => no_slash description = true
  | None => True
  end ->
  no_slash (output_name model_name prefix prefix_description) = true.
Proof.
  intros Hd. unfold output_name.
  assert (Hhash : no_slash (hash_prompt prefix) = true).
  { unfold no_slash. apply forallb_forall. intros c Hc.
    pose proof (hash_prompt_is_hex8 := hash_prompt_hex8 prefix).
    destruct hash_prompt_is_hex8 as [x Hx]. rewrite Hx in Hc.
    pose proof (hex8_digits x) as Hall. rewrite Forall_forall in Hall.
    specialize (Hall c Hc). unfold hex_digits in Hall. simpl in Hall.
    repeat (destruct Hall as [<-|Hall]; [reflexivity|]). contradiction. }
  pose proof (replace_slash_no_slash model_name) as Hm.
  unfold no_slash in *.
  destruct (truthy prefix).
  - destruct (option_truthy prefix_description) eqn:Ht.
    + destruct prefix_description as [d|]; [|discriminate].
      rewrite !forallb_app, Hm. simpl. exact Hd.
    + rewrite !forallb_app, Hm, Hhash. reflexivity.
  - rewrite forallb_app, Hm. reflexivity.
Qed.

Lemma output_name_is_one_component_witness :
  no_slash (output_name (lit "jinaai/jina-embeddings-v3") (lit "Query: ")
                        (Some (lit "query"))) = true.
Proof. apply output_name_is_one_component. reflexivity. Defined.

(** X19.  The name does not tell a [/] in the model identifier from
    two underscores: the two identifiers share the output directory. *)
Theorem output_name_confuses_slash_and_underscores
        (org name prefix : str) (prefix_description : option str) :
  output_name (org ++ lit "/" ++ name) prefix prefix_description =
  output_name (org ++ lit "__" ++ name) prefix prefix_description.
Proof.
  unfold output_name. rewrite !replace_char_app. reflexivity.
Qed.

(** ** The records *)

Lemma map_result_aligned (A B : Type) (f : A -> result B) (l : list A) (ys : list B) :
  map_result f l = Ok ys -> Forall2 (fun x y => f x = Ok y) l ys.
Proof.
  revert ys. induction l as [|x l IH]; intros ys; simpl.
  - intros [= <-]. constructor.
  - destruct (f x) as [y|e] eqn:Ex; [|discriminate].
    destruct (map_result f l) as [ys'|e]; [|discriminate].
    intros [= <-]. constructor; [exact Ex|]. apply IH. reflexivity.
Qed.

Lemma embed_aligned (float : Type) (model : SentenceTransformer float)
      (prefix : str) (chunks : list str) (embeddings : list (list float)) :
  embed model prefix chunks = Ok embeddings ->
  Forall2 (fun c emb => encode model (encode_input prefix c) = Ok emb) chunks embeddings.
Proof.
  unfold embed. rewrite embed_loop_map.
  destruct (map_result _ _) as [embs|e] eqn:E; [|discriminate].
  intros [= <-]. apply map_result_aligned in E.
  clear -E. remember (map (encode_input prefix) chunks) as inputs eqn:Hi.
  revert chunks Hi. induction E as [|x y l ys Hxy _ IH]; intros chunks Hi.
  - destruct chunks; [constructor|discriminate].
  - destruct chunks as [|c chunks]; [discriminate|].
    injection Hi as -> ->. constructor; [exact Hxy|]. apply IH. reflexivity.
Qed.

Section Records.

Variable float : Type.
Variable model : SentenceTransformer float.
Variable max_tokens : Z.
Variable prefix : str.

Abbreviation r_loop := (process_loop model max_tokens prefix).

Lemma process_loop_aligned rows :
  forall processed_articles,
    Forall (aligned model prefix) processed_articles ->
    Forall (aligned model prefix) (r_loop rows processed_articles).
Proof.
  induction rows as [|row rows IH]; intros acc Hacc; [exact Hacc|].
  simpl.
  destruct (preprocess model max_tokens (row_text row)) as [chunks|e]; [|apply IH, Hacc].
  destruct (embed model prefix chunks) as [embeddings|e] eqn:E; [|apply IH, Hacc].
  apply IH, Forall_app. split; [exact Hacc|].
  constructor; [|constructor]. apply embed_aligned, E.
Qed.

Lemma process_loop_length rows :
  length (r_loop rows []) <= length rows.
Proof.
  induction rows as [|row rows IH]; [simpl; lia|].
  simpl.
  destruct (preprocess model max_tokens (row_text row)) as [chunks|e]; [|lia].
  destruct (embed model prefix chunks) as [embeddings|e]; [|lia].
  rewrite process_loop_output, length_app. simpl. lia.
Qed.

Lemma process_loop_all_kept rows :
  (forall row, In row rows -> ~ row_fails model max_tokens prefix row) ->
  map (@article_id float) (r_loop rows [])
  = map (fun row => str_of_value (row_article_id row)) rows.
Proof.
  induction rows as [|row rows IH]; intros Hok; [reflexivity|].
  simpl.
  destruct (preprocess model max_tokens (row_text row)) as [chunks|e] eqn:Ep.
  - destruct (embed model prefix chunks) as [embeddings|e] eqn:Ee.
    + rewrite process_loop_output. simpl. rewrite IH; [reflexivity|].
      intros r Hr. apply Hok. right. exact Hr.
    + exfalso. apply (Hok row (or_introl eq_refl)).
      right. exists chunks, e. split; assumption.
  - exfalso. apply (Hok row (or_introl eq_refl)). left. exists e. exact Ep.
Qed.

End Records.

(** X20.  In every article of the output the embeddings are aligned
    with the chunks: there are as many, and each is what [encode]
    returned for the chunk at its place, with the prefix. *)
Theorem articles_are_index_aligned
        (float : Type) (model : SentenceTransformer float)
        (max_tokens : Z) (prefix : str) (rows : list Row) :
  Forall (fun a =>
            length (chunk a) = length (embedding a)
            /\ Forall2 (fun c emb => encode model (encode_input prefix c) = Ok emb)
                       (chunk a) (embedding a))
         (process_loop model max_tokens prefix rows []).
Proof.
  pose proof (@process_loop_aligned float model max_tokens prefix rows []
                (Forall_nil _)) as H.
  revert H. apply Forall_impl. intros a Ha. split; [|exact Ha].
  apply (Forall2_length Ha).
Qed.

(** X21.  The output has at most one article per record, and when no
    stage raises for any record it has the identifiers of all the
    records, in their order. *)
Theorem one_article_per_record_at_most
        (float : Type) (model : SentenceTransformer float)
        (max_tokens : Z) (prefix : str) (rows : list Row) :
  length (process_loop model max_tokens prefix rows []) <= length rows
  /\ ((forall row, In row rows -> ~ row_fails model max_tokens prefix row) ->
      map (@article_id float) (process_loop model max_tokens prefix rows [])
      = map (fun row => str_of_value (row_article_id row)) rows).
Proof.
  split; [apply process_loop_length|apply process_loop_all_kept].
Qed.

Lemma one_article_per_record_at_most_witness :
  map (@article_id Z)
      (process_loop refusing_model 512 []
         [ {| row_article_id := VInt 1; row_text := VStr (lit "First.") |};
           {| row_article_id := VStr (lit "b"); row_text := VStr (lit "Third.") |} ] [])
  = [lit "1"; lit "b"].
Proof.
  etransitivity.
  - apply (proj2 (@one_article_per_record_at_most Z refusing_model 512 []
             [ {| row_article_id := VInt 1; row_text := VStr (lit "First.") |};
               {| row_article_id := VStr (lit "b"); row_text := VStr (lit "Third.") |} ])).
    intros row [<-|[<-|[]]] [[e He]|(chunks & e & Hc & He)];
      try discriminate He;
      vm_compute in Hc; injection Hc as <-; discriminate He.
  - reflexivity.
Defined.

(** X22.  The loop keeps nothing from one record to the next: a table
    processed in two parts gives the articles of the first part
    followed by those of the second. *)
Theorem records_are_processed_independently
        (float : Type) (model : SentenceTransformer float)
        (max_tokens : Z) (prefix : str) (rows1 rows2 : list Row) :
  process_loop model max_tokens prefix (rows1 ++ rows2) [] =
  process_loop model max_tokens prefix rows1 []
  ++ process_loop model max_tokens prefix rows2 [].
Proof. apply process_loop_app. Qed.

Lemma nonterminal_nonspace (s : str) :
  forallb nonterminal (nonspace s) = forallb nonterminal s.
Proof.
  induction s as [|c s IH]; [reflexivity|].
  rewrite nonspace_cons. simpl. destruct (isspace c) eqn:Hc.
  - rewrite IH. unfold nonterminal at 2.
    destruct (isterminal c) eqn:Ht; [|reflexivity].
    rewrite (terminal_not_space c Ht) in Hc. discriminate.
  - simpl. rewrite IH. reflexivity.
Qed.

Lemma clean_whitespace_nonterminal (s : str) :
  forallb nonterminal (clean_whitespace s) = forallb nonterminal s.
Proof.
  rewrite <- nonterminal_nonspace, nonspace_clean_whitespace.
  apply nonterminal_nonspace.
Qed.

(** X23.  A record whose text has no terminal mark is not skipped: it
    gives an article without chunk and without embedding, and neither
    the tokenizer nor the encoder is called for it. *)
Theorem text_without_terminal_mark_gives_empty_article
        (float : Type) (model : SentenceTransformer float)
        (max_tokens : Z) (prefix : str) (before after : list Row)
        (row : Row) (text : str) :
  row_text row = VStr text ->
  forallb nonterminal text = true ->
  process_loop model max_tokens prefix (before ++ row :: after) [] =
  process_loop model max_tokens prefix before []
  ++ {| article_id := str_of_value (row_article_id row);
        chunk := []; embedding := [] |}
  :: process_loop model max_tokens prefix after [].
Proof.
  intros Htext Hnone.
  rewrite process_loop_app. f_equal.
  apply process_loop_keep; [|reflexivity].
  rewrite Htext. unfold preprocess, simple_sentencize.
  rewrite findall_sentences_none; [reflexivity|].
  rewrite clean_whitespace_nonterminal. exact Hnone.
Qed.

Lemma text_without_terminal_mark_gives_empty_article_witness :
  process_loop refusing_model 512 []
    [ {| row_article_id := VInt 7; row_text := VStr (lit "no end") |} ] [] =
  [ {| article_id := lit "7"; chunk := []; embedding := [] |} ].
Proof.
  apply (@text_without_terminal_mark_gives_empty_article Z refusing_model 512 []
           [] [] {| row_article_id := VInt 7; row_text := VStr (lit "no end") |}
           (lit "no end"));
    reflexivity.
Defined.

(** X24.  A record whose text is not a string gives no article,
    whatever the model. *)
Theorem record_without_text_is_skipped
        (float : Type) (model : SentenceTransformer float)
        (max_tokens : Z) (prefix : str) (before after : list Row) (row : Row) :
  (forall text, row_text row <> VStr text) ->
  process_loop model max_tokens prefix (before ++ row :: after) [] =
  process_loop model max_tokens prefix before []
  ++ process_loop model max_tokens prefix after [].
Proof.
  intros Htext. rewrite process_loop_app. f_equal.
  apply process_loop_skip. left. unfold preprocess.
  destruct (row_text row) as [text| |]; [destruct (Htext text eq_refl)| |];
    eexists; reflexivity.
Qed.

Lemma record_without_text_is_skipped_witness :
  process_loop refusing_model 512 []
    [ {| row_article_id := VInt 1; row_text := VStr (lit "First.") |};
      {| row_article_id := VInt 2; row_text := VNaN |} ] [] =
  [ {| article_id := lit "1"; chunk := [lit "First."]; embedding := [[6%Z]] |} ].
Proof.
  etransitivity.
  - apply (@record_without_text_is_skipped Z refusing_model 512 []
             [ {| row_article_id := VInt 1; row_text := VStr (lit "First.") |} ] []
             {| row_article_id := VInt 2; row_text := VNaN |}).
    discriminate.
  - reflexivity.
Defined.

(** X25.  A record is skipped when the tokenizer raises for one of the
    sentences of its normalised text. *)
Theorem record_is_skipped_when_tokenizer_raises
        (float : Type) (model : SentenceTransformer float)
        (max_tokens : Z) (prefix : str) (before after : list Row)
        (row : Row) (text sentence : str) (e : exn) :
  row_text row = VStr text ->
  In sentence (simple_sentencize (clean_whitespace text)) ->
  tokenize model sentence = Raise e ->
  process_loop model max_tokens prefix (before ++ row :: after) [] =
  process_loop model max_tokens prefix before []
  ++ process_loop model max_tokens prefix after [].
Proof.
  intros Htext Hin He. rewrite process_loop_app. f_equal.
  apply process_loop_skip. left. rewrite Htext. unfold preprocess, chunk_sentences.
  eapply chunk_loop_raises; eassumption.
Qed.

Lemma record_is_skipped_when_tokenizer_raises_witness :
  process_loop choking_model 512 []
    [ {| row_article_id := VInt 1; row_text := VStr (lit "Good. Bad.") |};
      {| row_article_id := VInt 2; row_text := VStr (lit "Fine.") |} ] [] =
  [ {| article_id := lit "2"; chunk := [lit "Fine."]; embedding := [[5%Z]] |} ].
Proof.
  etransitivity.
  - apply (@record_is_skipped_when_tokenizer_raises Z choking_model 512 []
             [] [ {| row_article_id := VInt 2; row_text := VStr (lit "Fine.") |} ]
             {| row_article_id := VInt 1; row_text := VStr (lit "Good. Bad.") |}
             (lit "Good. Bad.") (lit "Bad.") (Exception "unknown symbol")).
    + reflexivity.
    + right. left. reflexivity.
    + reflexivity.
  - reflexivity.
Defined.

(** ** The chunks of a record are well spaced *)

Lemma single_spaced_app (a b : str) :
  single_spaced (a ++ b) -> single_spaced a /\ single_spaced b.
Proof.
  induction a as [|c a IH]; simpl; [intros H; split; [exact I|exact H]|].
  intros [Hc Hab]. destruct (IH Hab) as [Ha Hb]. split; [|exact Hb].
  split; [|exact Ha].
  intros Hw. destruct (Hc Hw) as (-> & Hn).
  split; [reflexivity|]. destruct a; [exact I|exact Hn].
Qed.

Lemma single_spaced_join2 (a b : str) :
  single_spaced a -> head_nonspace (rev a) ->
  single_spaced b -> head_nonspace b ->
  single_spaced (a ++ SPACE :: b).
Proof.
  intros Ha Hlast Hb Hhead.
  induction a as [|c a IH]; simpl.
  - split; [intros _; split; [reflexivity|exact Hhead]|exact Hb].
  - destruct Ha as [Hc Ha].
    assert (Hlast' : a <> [] -> head_nonspace (rev a)).
    { intros Hne. simpl in Hlast. destruct (rev a) as [|d ra] eqn:E.
      - apply (f_equal (@rev ascii)) in E. rewrite rev_involutive in E. contradiction.
      - exact Hlast. }
    split.
    + intros Hw. destruct (Hc Hw) as [-> Hn]. split; [reflexivity|].
      destruct a as [|d a]; [|exact Hn].
      simpl in Hlast. rewrite Hlast in Hw. discriminate.
    + destruct a as [|d a].
      * simpl. split; [intros _; split; [reflexivity|exact Hhead]|exact Hb].
      * apply IH; [exact Ha|apply Hlast'; discriminate].
Qed.

Lemma rev_head_app (a : str) (c : ascii) (b : str) :
  head_nonspace (rev (c :: b)) -> head_nonspace (rev (a ++ c :: b)).
Proof.
  rewrite rev_app_distr. simpl rev.
  destruct (rev b) as [|d rb]; simpl; trivial.
Qed.

Lemma join_pieces (g : list str) :
  Forall piece g -> well_spaced (join [SPACE] g).
Proof.
  induction 1 as [|x g [Hne [Hs [Hh Hl]]] Hg IH].
  - repeat split.
  - destruct g as [|y g]; [repeat split; assumption|].
    change (join [SPACE] (x :: y :: g)) with (x ++ SPACE :: join [SPACE] (y :: g)).
    destruct IH as [IHs [IHh IHl]].
    inversion Hg as [|? ? [Hyne _] _]; subst.
    assert (Hj : join [SPACE] (y :: g) <> []) by (apply join_nonempty, Hyne).
    split; [apply single_spaced_join2; assumption|]. split.
    + destruct x; [contradiction|exact Hh].
    + destruct (join [SPACE] (y :: g)) as [|d r] eqn:E; [contradiction|].
      change (x ++ SPACE :: d :: r) with (x ++ [SPACE] ++ d :: r).
      rewrite app_assoc. apply rev_head_app. exact IHl.
Qed.

Lemma wordlike_piece (w : str) : wordlike w -> piece w.
Proof.
  intros [Hne Hw]. split; [exact Hne|].
  assert (Hall : forall c, In c w -> isspace c = false).
  { intros c Hc. rewrite forallb_forall in Hw. specialize (Hw c Hc).
    destruct (isspace c); [discriminate|reflexivity]. }
  split; [|split].
  - clear Hne Hw. induction w as [|c w IH]; [exact I|].
    split; [|apply IH; intros d Hd; apply Hall; right; exact Hd].
    intros Hc. rewrite (Hall c (or_introl eq_refl)) in Hc. discriminate.
  - destruct w as [|c w]; [exact I|]. apply Hall. left. reflexivity.
  - destruct (rev w) as [|c rw] eqn:E; [exact I|].
    apply Hall. apply in_rev. rewrite E. left. reflexivity.
Qed.

Section WellSpacedChunks.

Variable tokenize : str -> result nat.
Variable max_tokens : Z.

Lemma flush_well_spaced (l current : list str) :
  Forall well_spaced l -> Forall piece current ->
  Forall well_spaced (l ++ [join [SPACE] current]).
Proof.
  intros Hl Hc. apply Forall_app. split; [exact Hl|].
  constructor; [apply join_pieces, Hc|constructor].
Qed.

Lemma split_long_loop_well_spaced (words : list str) :
  Forall piece words ->
  forall parts current_part current_len res,
    Forall well_spaced parts -> Forall piece current_part ->
    split_long_loop (M:=result) tokenize max_tokens words parts current_part current_len
    = Ok res ->
    Forall well_spaced res.
Proof.
  induction 1 as [|w ws Hw _ IH]; intros parts cur len res Hparts Hcur.
  - simpl. intros [= <-]. destruct cur; [exact Hparts|].
    apply flush_well_spaced; assumption.
  - simpl. destruct (tokenize w) as [n|e]; [|discriminate]. simpl.
    destruct (Z.of_nat (len + n) >? max_tokens)%Z.
    + apply IH; [apply flush_well_spaced; assumption|].
      constructor; [exact Hw|constructor].
    + apply IH; [exact Hparts|].
      apply Forall_app. split; [exact Hcur|]. constructor; [exact Hw|constructor].
Qed.

Lemma chunk_loop_well_spaced (sentences : list str) :
  Forall piece sentences ->
  forall output current_chunk chunk_len res,
    Forall well_spaced output -> Forall piece current_chunk ->
    chunk_loop (M:=result) tokenize max_tokens sentences output current_chunk chunk_len
    = Ok res ->
    Forall well_spaced res.
Proof.
  induction 1 as [|s ss Hs _ IH]; intros out cur len res Hout Hcur.
  - simpl. intros [= <-]. destruct cur; [exact Hout|].
    apply flush_well_spaced; assumption.
  - simpl. destruct (tokenize s) as [n|e]; [|discriminate]. simpl.
    assert (Hnext : Forall piece (cur ++ [s])).
    { apply Forall_app. split; [exact Hcur|]. constructor; [exact Hs|constructor]. }
    destruct (Z.of_nat (len + n) >? max_tokens)%Z; [destruct cur as [|x cur]|].
    + destruct (split_long_sentence tokenize max_tokens s) as [parts|e] eqn:E;
        [|discriminate].
      simpl. apply IH; [|exact Hnext].
      apply Forall_app. split; [exact Hout|].
      unfold split_long_sentence in E.
      apply (@split_long_loop_well_spaced (split s)) in E;
        [exact E| |constructor|constructor].
      eapply Forall_impl; [exact wordlike_piece|apply split_words_wordlike].
    + simpl. apply IH; [apply (@flush_well_spaced out (x :: cur)); assumption|].
      constructor; [exact Hs|constructor].
    + simpl. apply IH; [exact Hout|exact Hnext].
Qed.

End WellSpacedChunks.

Lemma tidy_middle (a m b : str) : tidy (a ++ m ++ b) -> tidy m.
Proof.
  intros H. apply tidy_app in H. destruct H as [_ H].
  apply tidy_app in H. exact (proj1 H).
Qed.

Lemma strip_middle (m : str) : exists w1 w2, m = w1 ++ strip m ++ w2.
Proof.
  destruct (lstrip_suffix m) as [w1 E1].
  destruct (rstrip_prefix (lstrip m)) as [w2 E2].
  exists w1, w2. unfold strip. rewrite <- E2. exact E1.
Qed.

Lemma sentences_are_pieces (text : str) :
  tidy text -> Forall piece (simple_sentencize text).
Proof.
  intros Ht.
  destruct (@findall_sentences_matches (length text) text (le_n _))
    as (_ & _ & tail & _ & Hc).
  pose proof (sentences_end_in_their_only_terminal_mark text) as Hshape.
  rewrite simple_sentencize_keeps_matches in *.
  rewrite Forall_forall in *. intros s Hs.
  destruct (Hshape s Hs) as [Htrim (body & p & Es & _)].
  split; [rewrite Es; destruct body; discriminate|]. split; [|exact Htrim].
  clear Es Htrim.
  apply tidy_single_spaced.
  apply in_map_iff in Hs. destruct Hs as (m & Hm & Hin).
  apply in_split in Hin. destruct Hin as (ms1 & ms2 & Hms).
  rewrite Hms, concat_app in Hc. simpl concat in Hc.
  destruct (strip_middle m) as (w1 & w2 & Em).
  rewrite Em, Hm in Hc. rewrite <- Hc in Ht.
  rewrite <- !app_assoc in Ht. apply tidy_app in Ht. destruct Ht as [_ Ht].
  apply tidy_app in Ht. destruct Ht as [_ Ht].
  apply tidy_app in Ht. exact (proj1 Ht).
Qed.

(** X26.  Every chunk made for a record is empty or has whitespace only
    as single spaces between other characters: no newline, no tab,
    no run of spaces, none at either end. *)
Theorem chunks_of_a_record_are_well_spaced
        (float : Type) (model : SentenceTransformer float)
        (max_tokens : Z) (text : value) (chunks : list str) :
  preprocess model max_tokens text = Ok chunks ->
  Forall well_spaced chunks.
Proof.
  unfold preprocess. destruct text as [text| |]; try discriminate.
  unfold chunk_sentences. apply chunk_loop_well_spaced; [|constructor|constructor].
  apply sentences_are_pieces, clean_whitespace_normal.
Qed.

Lemma chunks_of_a_record_are_well_spaced_witness :
  Forall well_spaced [lit "Hello, world!"; lit "Bye."].
Proof.
  apply (@chunks_of_a_record_are_well_spaced Z refusing_model 16
           (VStr (lit "  Hello ,   world !   Bye .  "))).
  reflexivity.
Defined.
